(** * Dagoba: the graph store, the stage functions and the execution engine

    A shallow embedding of [src/dagoba.js] and the properties of it that are
    stated of the store, of the stages and of the engine.

    Modelling conventions.
    - JavaScript primitives are the type [prim].  Numbers are the integers
      ([Z]) and the three numbers that are not finite, [NaN], [Infinity] and
      [-Infinity]; fractions are left out, and zero has no sign (no
      comparison of the source tells [-0] from [0]).  The numbers of the
      source are doubles, which hold the integers of the safe range,
      [|n| < 2^53]: on that range the counter counts and [to_string] prints
      as the source does.
    - Objects that the source mutates and shares (vertices, edges, the
      checkpoint state carried by gremlins) live in heaps and are named by
      references, the indices into a list.  A reference that points outside
      its heap stands for something that is no object of the store, such as
      what a caller may have put into an adjacency array it supplied; a stage
      that meets one is [Stuck], where the source goes on with a value that
      is no vertex or throws.  A store built by insertions of vertices that
      bring no arrays holds none ([store_closed]).
    - Vertices, edges and the registry of stages are plain objects: a key
      they do not own but [Object.prototype] holds reads what every object
      inherits ([VInherited], [inherited_call]), not [undefined].
    - Every insertion is handed an object of its own, and an adjacency array
      that a vertex brings is its own too.  [addVertex] and [addEdge] write
      into the object they are given and keep the arrays it brings, so an
      object handed over twice, or an array brought by two vertices, would be
      shared; arrays are kept by value here, and what [addEdge] does to them
      is stated of stores whose vertices arrived without arrays ([plain],
      [no_arrays]).
    - A JavaScript [Map] iterates in insertion order, so it is an association
      list with [Map_get] / [Map_has] / [Map_set]; an object used as a
      dictionary (properties, checkpoints, filters, the stage registry, the
      sparse array of stage states) is a [gmap]; the [Set] of the [unique]
      stage is a [gset].
    - [Dagoba.error] logs its message and returns [false]: the outcome
      [Failed msg].  An exception thrown by a stage is [TypeError].
    - Property values are primitives; the reserved fields ([_id], [_in],
      [_out], [_label]) are record fields and never keys of a property map.
    - [JSON.stringify] followed by [JSON.parse] is given by what it does to
      the values ([json_value], [json_props]); the text in between is the
      platform's.
    - Loops that need not end take a bound on the number of iterations
      ([fuel]) and say so when it runs out. *)

From Stdlib Require Import ZArith.
From stdpp Require Import base option strings pretty countable gmap list.

Local Open Scope Z_scope.

(** ** Primitives *)

Inductive prim : Type :=
  | PUndef
  | PNull
  | PBool (b : bool)
  | PNum (n : Z)
  | PNaN
  | PInf (negative : bool)
  | PStr (s : string).

Global Instance prim_eq_dec : EqDecision prim.
Proof. solve_decision. Defined.

Definition prim_to_sum (p : prim)
  : unit + (unit + (bool + (Z + (string + (unit + bool))))) :=
  match p with
  | PUndef => inl ()
  | PNull => inr (inl ())
  | PBool b => inr (inr (inl b))
  | PNum n => inr (inr (inr (inl n)))
  | PStr s => inr (inr (inr (inr (inl s))))
  | PNaN => inr (inr (inr (inr (inr (inl ())))))
  | PInf b => inr (inr (inr (inr (inr (inr b)))))
  end.

Definition prim_of_sum (x : unit + (unit + (bool + (Z + (string + (unit + bool))))))
  : prim :=
  match x with
  | inl _ => PUndef
  | inr (inl _) => PNull
  | inr (inr (inl b)) => PBool b
  | inr (inr (inr (inl n))) => PNum n
  | inr (inr (inr (inr (inl s)))) => PStr s
  | inr (inr (inr (inr (inr (inl _))))) => PNaN
  | inr (inr (inr (inr (inr (inr b))))) => PInf b
  end.

Global Instance prim_countable : Countable prim.
Proof.
  refine (inj_countable' prim_to_sum prim_of_sum _).
  intros []; reflexivity.
Defined.

(** [!!x] is [false] exactly on [undefined], [null], [false], [0], [NaN] and
    the empty string. *)
Definition truthy (p : prim) : bool :=
  match p with
  | PUndef | PNull | PNaN => false
  | PBool b => b
  | PNum n => negb (n =? 0)%Z
  | PInf _ => true
  | PStr s => negb (bool_decide (s = ""))
  end.

(** String conversion, as performed by a template literal or a property key.
    An integer is printed in decimal, as the source prints the integers of
    the safe range. *)
Definition to_string (p : prim) : string :=
  match p with
  | PUndef => "undefined"
  | PNull => "null"
  | PBool true => "true"
  | PBool false => "false"
  | PNum n => pretty n
  | PNaN => "NaN"
  | PInf false => "Infinity"
  | PInf true => "-Infinity"
  | PStr s => s
  end.

(** [Number.isSafeInteger]: the integers a number of the source holds
    exactly, and prints digit by digit. *)
Definition safe_integer (n : Z) : bool := (Z.abs n <? 2 ^ 53)%Z.

(** The primitives whose conversion to a string is the one given by
    [to_string]: all but the integers beyond the safe range. *)
Definition prints_exactly (p : prim) : bool :=
  match p with PNum n => safe_integer n | _ => true end.

(** [Number.isNaN] *)
Definition is_nan (p : prim) : bool :=
  match p with PNaN => true | _ => false end.

(** ** The JavaScript [Map]: insertion-ordered, keys compared structurally *)

Section JsMap.
Context {K V : Type} `{EqDecision K}.

Fixpoint Map_get (k : K) (m : list (K * V)) : option V :=
  match m with
  | [] => None
  | (k', v) :: m' => if decide (k = k') then Some v else Map_get k m'
  end.

Definition Map_has (k : K) (m : list (K * V)) : bool :=
  match Map_get k m with Some _ => true | None => false end.

(** [set] on a present key keeps the key's position. *)
Fixpoint Map_set (k : K) (v : V) (m : list (K * V)) : list (K * V) :=
  match m with
  | [] => [(k, v)]
  | (k', v') :: m' =>
      if decide (k = k') then (k, v) :: m' else (k', v') :: Map_set k v m'
  end.

Definition Map_values (m : list (K * V)) : list V := m.*2.
Definition Map_keys (m : list (K * V)) : list K := m.*1.
End JsMap.

(** ** Objects of the store *)

Abbreviation vref := nat (only parsing).
Abbreviation eref := nat (only parsing).

(** A vertex held by the store: [_id], the two adjacency arrays and the
    remaining properties. *)
Record vertex : Type := Vertex {
  v_id : prim;
  v_out : list eref;
  v_in : list eref;
  v_props : gmap string prim
}.

(** An edge held by the store: after insertion [_out] and [_in] are vertex
    objects, not ids. *)
Record edge : Type := Edge {
  e_out : vref;
  e_in : vref;
  e_label : prim;
  e_props : gmap string prim
}.

(** A vertex as the caller hands it to [addVertex]: [_id] may be missing
    ([PUndef]), and the adjacency arrays may be absent ([None]).  A supplied
    array is the caller's own, not one shared with another vertex. *)
Record vertex_arg : Type := VertexArg {
  va_id : prim;
  va_out : option (list eref);
  va_in : option (list eref);
  va_props : gmap string prim
}.

(** An edge as the caller hands it to [addEdge]: [_out] and [_in] are ids. *)
Record edge_arg : Type := EdgeArg {
  ea_out : prim;
  ea_in : prim;
  ea_label : prim;
  ea_props : gmap string prim
}.

Record graph : Type := Graph {
  vheap : list vertex;                 (* the vertex objects *)
  eheap : list edge;                   (* the edge objects *)
  vertices : list (prim * vref);
  edges : list (string * eref);
  vertexIndex : list (prim * vref);
  edgeIndex : list (string * eref);
  autoid : Z
}.

Inductive outcome (A : Type) : Type :=
  | Returned (a : A)
  | Failed (msg : string).
Global Arguments Returned {A} a.
Global Arguments Failed {A} msg.

(** [Dagoba.graph()] with no arrays. *)
Definition empty_graph : graph :=
  {| vheap := []; eheap := []; vertices := []; edges := [];
     vertexIndex := []; edgeIndex := []; autoid := 1 |}.

(** Lines 47-51 of [addVertex]: the vertex object, now carrying [id], receives
    its adjacency arrays and is stored under [id] in both maps. *)
Definition store_vertex (g : graph) (id : prim) (v : vertex_arg) (next : Z)
  : graph * outcome prim :=
  let r := length (vheap g) in
  let obj := {| v_id := id;
                v_out := default [] (va_out v);
                v_in := default [] (va_in v);
                v_props := va_props v |} in
  ({| vheap := vheap g ++ [obj]; eheap := eheap g;
      vertices := Map_set id r (vertices g); edges := edges g;
      vertexIndex := Map_set id r (vertexIndex g); edgeIndex := edgeIndex g;
      autoid := next |},
   Returned id).

Definition addVertex (g : graph) (v : vertex_arg) : graph * outcome prim :=
  if negb (truthy (va_id v)) then
    store_vertex g (PNum (autoid g)) v (autoid g + 1)
  else if Map_has (va_id v) (vertexIndex g) then
    (g, Failed ("A vertex with id " +:+ to_string (va_id v) +:+ " already exists"))
  else
    store_vertex g (va_id v) v (autoid g).

Definition findVertexById (g : graph) (vertex_id : prim) : option vref :=
  Map_get vertex_id (vertexIndex g).

(** [vertex._id] of a vertex object. *)
Definition id_of (g : graph) (r : vref) : prim :=
  default PUndef (v_id <$> vheap g !! r).

Definition push_out (e : eref) (v : vertex) : vertex :=
  {| v_id := v_id v; v_out := v_out v ++ [e]; v_in := v_in v; v_props := v_props v |}.
Definition push_in (e : eref) (v : vertex) : vertex :=
  {| v_id := v_id v; v_out := v_out v; v_in := v_in v ++ [e]; v_props := v_props v |}.

(** The key of an edge, built by a template literal from the two ids and the
    label as [to_string] prints them. *)
Definition edge_key (out_id in_id label : prim) : string :=
  to_string out_id +:+ "->" +:+ to_string in_id +:+ ":" +:+ to_string label.

Definition addEdge (g : graph) (e : edge_arg) : graph * outcome unit :=
  let inVertex := findVertexById g (ea_in e) in
  let outVertex := findVertexById g (ea_out e) in
  match inVertex, outVertex with
  | Some iv, Some ov =>
      let r := length (eheap g) in
      let obj := {| e_out := ov; e_in := iv;
                    e_label := ea_label e; e_props := ea_props e |} in
      let edgeId := edge_key (id_of g ov) (id_of g iv) (ea_label e) in
      ({| vheap := alter (push_in r) iv (alter (push_out r) ov (vheap g));
          eheap := eheap g ++ [obj];
          vertices := vertices g; edges := Map_set edgeId r (edges g);
          vertexIndex := vertexIndex g;
          edgeIndex := Map_set edgeId r (edgeIndex g);
          autoid := autoid g |},
       Returned ())
  | _, _ =>
      (g, Failed ("That edge's "
                  +:+ (if inVertex is Some _ then "out" else "in")
                  +:+ " vertex wasn't found"))
  end.

Definition addVertices (g : graph) (vs : list vertex_arg) : graph :=
  foldl (λ g v, (addVertex g v).1) g vs.
Definition addEdges (g : graph) (es : list edge_arg) : graph :=
  foldl (λ g e, (addEdge g e).1) g es.

(** [Dagoba.graph(V, E)]: an argument that is not an array is skipped. *)
Definition Dagoba_graph (V : option (list vertex_arg)) (E : option (list edge_arg))
  : graph :=
  let g := match V with Some vs => addVertices empty_graph vs | None => empty_graph end in
  match E with Some es => addEdges g es | None => g end.

(** The stores a caller can build: the empty one and what the two insertion
    calls make of it, whether they succeed or fail. *)
Inductive reachable : graph → Prop :=
  | reachable_empty : reachable empty_graph
  | reachable_vertex g v : reachable g → reachable (addVertex g v).1
  | reachable_edge g e : reachable g → reachable (addEdge g e).1.

(** ** Gremlins, arguments and stage state *)

Abbreviation sref := nat (only parsing).

(** What a property read or a query can return: a primitive, a vertex object,
    an adjacency array, or what [Object.prototype] holds under a name (a
    function of the platform, or the prototype itself under [__proto__]). *)
Inductive value : Type :=
  | VPrim (p : prim)
  | VVertex (r : vref)
  | VEdges (l : list eref)
  | VInherited (name : string).

Global Instance value_eq_dec : EqDecision value.
Proof. solve_decision. Defined.

(** [x == null] *)
Definition nullish (v : value) : bool :=
  match v with
  | VPrim PUndef | VPrim PNull => true
  | _ => false
  end.

(** A gremlin: [vertex], [state] (a shared object, hence a reference) and
    [result], which is [undefined] until [property] sets it.  No stage keeps a
    gremlin and later reads a field that another stage wrote, so gremlins are
    values. *)
Record gremlin : Type := Gremlin {
  g_vertex : vref;
  g_state : sref;
  g_result : value
}.

Global Instance gremlin_eq_dec : EqDecision gremlin.
Proof. solve_decision. Defined.

(** The heap of gremlin state objects; each has the field [as] (a dictionary
    from labels to vertices) or lacks it. *)
Abbreviation sheap := (list (option (gmap string nat))) (only parsing).

(** An argument of a step: a primitive, an object literal, an array of
    primitives, or a predicate ([src] is the text it converts to). *)
Inductive arg : Type :=
  | APrim (p : prim)
  | AObj (o : gmap string prim)
  | AArr (l : list prim)
  | AFun (src : string) (f : graph → sheap → gremlin → bool).

Definition step : Type := string * list arg.

(** [args[0]] *)
Definition arg0 (args : list arg) : arg := default (APrim PUndef) (args !! 0%nat).

Definition arg_truthy (a : arg) : bool :=
  match a with APrim p => truthy p | _ => true end.

(** [typeof a === 'object'] *)
Definition typeof_object (a : arg) : bool :=
  match a with
  | APrim PNull | AObj _ | AArr _ => true
  | _ => false
  end.

Definition join_elem (p : prim) : string :=
  match p with PUndef | PNull => "" | _ => to_string p end.

Fixpoint join (l : list prim) : string :=
  match l with
  | [] => ""
  | [p] => join_elem p
  | p :: l' => join_elem p +:+ "," +:+ join l'
  end.

(** An argument used as a property key. *)
Definition property_key (a : arg) : string :=
  match a with
  | APrim p => to_string p
  | AObj _ => "[object Object]"
  | AArr l => join l
  | AFun src _ => src
  end.

(** [for (const key in filter)] with [filter[key]]; [objectFilter] is never
    handed a string. *)
Definition enumerate (filter : arg) : list (string * prim) :=
  match filter with
  | AObj o => map_to_list o
  | AArr l => imap (λ i p, (pretty i, p)) l
  | _ => []
  end.

(** The names that every plain object inherits from [Object.prototype]. *)
Definition Object_prototype : list string :=
  ["constructor"; "hasOwnProperty"; "isPrototypeOf"; "propertyIsEnumerable";
   "toLocaleString"; "toString"; "valueOf"; "__proto__";
   "__defineGetter__"; "__defineSetter__"; "__lookupGetter__"; "__lookupSetter__"].

Definition inherited (name : string) : bool := bool_decide (name ∈ Object_prototype).

(** [object[key]] on a plain object with the own properties [props]: a key
    that is not its own is looked up in [Object.prototype]. *)
Definition own_or_inherited (props : gmap string prim) (key : string) : value :=
  match props !! key with
  | Some p => VPrim p
  | None => if inherited key then VInherited key else VPrim PUndef
  end.

(** [vertex[key]] and [edge[key]] *)
Definition vertex_get (v : vertex) (key : string) : value :=
  if bool_decide (key = "_id") then VPrim (v_id v)
  else if bool_decide (key = "_out") then VEdges (v_out v)
  else if bool_decide (key = "_in") then VEdges (v_in v)
  else own_or_inherited (v_props v) key.

Definition edge_get (e : edge) (key : string) : value :=
  if bool_decide (key = "_label") then VPrim (e_label e)
  else if bool_decide (key = "_out") then VVertex (e_out e)
  else if bool_decide (key = "_in") then VVertex (e_in e)
  else own_or_inherited (e_props e) key.

(** [x === p] against a primitive [p]: [NaN] equals nothing, not even
    itself. *)
Definition strict_eq (x : value) (p : prim) : bool :=
  bool_decide (x = VPrim p) && negb (is_nan p).

(** [Dagoba.objectFilter(thing, filter)], [thing] given by its reader. *)
Definition objectFilter (thing : string → value) (filter : arg) : bool :=
  forallb (λ kp, strict_eq (thing kp.1) kp.2) (enumerate filter).

Definition filterEdges (filter : arg) (e : edge) : bool :=
  if negb (arg_truthy filter) then true
  else match filter with
       | APrim (PStr s) => bool_decide (e_label e = PStr s)
       | AArr l => bool_decide (e_label e ∈ l)
       | _ => objectFilter (edge_get e) filter
       end.

(** The per-position state object: the fields the built-in stages use. *)
Record stage_state : Type := StageState {
  st_vertices : option (list vref);
  st_edges : option (list eref);
  st_gremlin : option gremlin;
  st_visited : option (gset prim);
  st_taken : option Z
}.

(** [Object.create(null)] *)
Definition empty_state : stage_state :=
  {| st_vertices := None; st_edges := None; st_gremlin := None;
     st_visited := None; st_taken := None |}.

Definition set_vertices (vs : list vref) (st : stage_state) : stage_state :=
  {| st_vertices := Some vs; st_edges := st_edges st; st_gremlin := st_gremlin st;
     st_visited := st_visited st; st_taken := st_taken st |}.
Definition set_edges (es : list eref) (st : stage_state) : stage_state :=
  {| st_vertices := st_vertices st; st_edges := Some es; st_gremlin := st_gremlin st;
     st_visited := st_visited st; st_taken := st_taken st |}.
Definition set_gremlin (gr : gremlin) (st : stage_state) : stage_state :=
  {| st_vertices := st_vertices st; st_edges := st_edges st; st_gremlin := Some gr;
     st_visited := st_visited st; st_taken := st_taken st |}.
Definition set_visited (s : gset prim) (st : stage_state) : stage_state :=
  {| st_vertices := st_vertices st; st_edges := st_edges st; st_gremlin := st_gremlin st;
     st_visited := Some s; st_taken := st_taken st |}.
Definition set_taken (n : Z) (st : stage_state) : stage_state :=
  {| st_vertices := st_vertices st; st_edges := st_edges st; st_gremlin := st_gremlin st;
     st_visited := st_visited st; st_taken := Some n |}.

(** What a stage function returns: a gremlin, [false], ['pull'] or ['done']. *)
Inductive signal : Type :=
  | Emit (gr : gremlin)
  | Empty
  | Pull
  | Done.

(** A call of a stage function: it returns a signal, leaving its state object
    and the gremlin states as given; or it throws a [TypeError]; or it is not
    followed any further ([Stuck]): it met a reference that points outside a
    heap, or what was called is no stage function. *)
Inductive pipe_result : Type :=
  | Step (s : signal) (st : stage_state) (h : sheap)
  | TypeError
  | Stuck.

Definition pipetype : Type :=
  graph → list arg → option gremlin → stage_state → sheap → pipe_result.

(** [Array.prototype.pop] *)
Definition pop {A : Type} (l : list A) : option (A * list A) :=
  match reverse l with
  | [] => None
  | x :: r => Some (x, reverse r)
  end.

(** ** Lookups of the store used by queries *)

Definition findVerticesByIds (g : graph) (ids : list arg) : list vref :=
  let find (id : arg) : option vref :=
    match id with APrim p => findVertexById g p | _ => None end in
  match ids with
  | [id] => match find id with Some vertex => [vertex] | None => [] end
  | _ => omap find ids
  end.

Definition searchVertices (g : graph) (filter : arg) : list vref :=
  List.filter (λ r, match vheap g !! r with
                    | Some v => objectFilter (vertex_get v) filter
                    | None => false
                    end)
              (Map_values (vertices g)).

Definition findVertices (g : graph) (args : list arg) : list vref :=
  if typeof_object (arg0 args) then searchVertices g (arg0 args)
  else if bool_decide (length args = 0%nat) then Map_values (vertices g)
  else findVerticesByIds g args.

Definition findOutEdges (g : graph) (vertex : vref) : option (list eref) :=
  v_out <$> vheap g !! vertex.
Definition findInEdges (g : graph) (vertex : vref) : option (list eref) :=
  v_in <$> vheap g !! vertex.

(** ** Helper functions of the stages *)

Definition makeGremlin (vertex : vref) (state : option sref) (h : sheap)
  : gremlin * sheap :=
  match state with
  | Some s => ({| g_vertex := vertex; g_state := s; g_result := VPrim PUndef |}, h)
  | None =>
      ({| g_vertex := vertex; g_state := length h; g_result := VPrim PUndef |},
       h ++ [None])
  end.

Definition gotoVertex (gr : gremlin) (vertex : vref) (h : sheap) : gremlin * sheap :=
  makeGremlin vertex (Some (g_state gr)) h.

(** [adjacency.filter(Dagoba.filterEdges(filter))] *)
Fixpoint filter_edges (g : graph) (filter : arg) (l : list eref)
  : option (list eref) :=
  match l with
  | [] => Some []
  | r :: l' =>
      match eheap g !! r, filter_edges g filter l' with
      | Some e, Some rest => Some (if filterEdges filter e then r :: rest else rest)
      | _, _ => None
      end
  end.

(** ** The built-in stages *)

Definition pipe_vertex : pipetype := λ g args gremlin state h,
  let vs := match st_vertices state with
            | None => findVertices g args
            | Some vs => vs
            end in
  match pop vs with
  | None => Step Done (set_vertices vs state) h
  | Some (vertex, rest) =>
      let '(gr, h') := makeGremlin vertex (g_state <$> gremlin) h in
      Step (Emit gr) (set_vertices rest state) h'
  end.

(** [!state.edges || !state.edges.length] *)
Definition no_edges (state : stage_state) : bool :=
  match st_edges state with
  | None => true
  | Some l => bool_decide (l = [])
  end.

(** The tail of a traversal stage, from [if (!state.edges.length)] on. *)
Definition traverse_next (edge_list : edge → vref) (g : graph)
    (state : stage_state) (h : sheap) : pipe_result :=
  match pop (default [] (st_edges state)) with
  | None => Step Pull state h
  | Some (r, rest) =>
      match eheap g !! r, st_gremlin state with
      | None, _ => Stuck
      | Some _, None => TypeError
      | Some e, Some kept =>
          let '(gr, h') := gotoVertex kept (edge_list e) h in
          Step (Emit gr) (set_edges rest state) h'
      end
  end.

Definition simpleTraversal (dir : string) : pipetype := λ g args gremlin state h,
  let find_method := if bool_decide (dir = "out") then findOutEdges else findInEdges in
  let edge_list := if bool_decide (dir = "out") then e_in else e_out in
  match gremlin, no_edges state with
  | None, true => Step Pull state h
  | Some gr, true =>
      match find_method g (g_vertex gr) ≫= filter_edges g (arg0 args) with
      | None => Stuck
      | Some es => traverse_next edge_list g (set_edges es (set_gremlin gr state)) h
      end
  | _, false => traverse_next edge_list g state h
  end.

Definition pipe_property : pipetype := λ g args gremlin state h,
  match gremlin with
  | None => Step Pull state h
  | Some gr =>
      match vheap g !! g_vertex gr with
      | None => Stuck
      | Some v =>
          let res := vertex_get v (property_key (arg0 args)) in
          if nullish res then Step Empty state h
          else Step (Emit {| g_vertex := g_vertex gr; g_state := g_state gr;
                             g_result := res |}) state h
      end
  end.

Definition pipe_unique : pipetype := λ g args gremlin state h,
  match gremlin with
  | None => Step Pull state h
  | Some gr =>
      let visited := default ∅ (st_visited state) in
      match vheap g !! g_vertex gr with
      | None => Stuck
      | Some v =>
          if decide (v_id v ∈ visited) then Step Pull (set_visited visited state) h
          else Step (Emit gr) (set_visited ({[v_id v]} ∪ visited) state) h
      end
  end.

Definition pipe_filter : pipetype := λ g args gremlin state h,
  match gremlin with
  | None => Step Pull state h
  | Some gr =>
      if typeof_object (arg0 args) then
        match vheap g !! g_vertex gr with
        | None => Stuck
        | Some v =>
            if objectFilter (vertex_get v) (arg0 args) then Step (Emit gr) state h
            else Step Pull state h
        end
      else
        match arg0 args with
        | AFun _ f => if f g h gr then Step (Emit gr) state h else Step Pull state h
        | _ => Step (Emit gr) state h      (* after [Dagoba.error] *)
        end
  end.

Definition pipe_take : pipetype := λ g args gremlin state h,
  let taken := default 0 (st_taken state) in       (* [state.taken || 0] *)
  let limit := match arg0 args with
               | APrim (PNum n) => bool_decide (taken = n)
               | _ => false
               end in
  if limit then Step Done (set_taken 0 state) h
  else match gremlin with
       | None => Step Pull (set_taken taken state) h
       | Some gr => Step (Emit gr) (set_taken (taken + 1) state) h
       end.

Definition pipe_as : pipetype := λ g args gremlin state h,
  match gremlin with
  | None => Step Pull state h
  | Some gr =>
      match h !! g_state gr with
      | None => Stuck
      | Some as_ =>
          let marks := <[property_key (arg0 args) := g_vertex gr]> (default ∅ as_) in
          Step (Emit gr) state (<[g_state gr := Some marks]> h)
      end
  end.

(** [gremlin.state.as ? gremlin.state.as[label] : null] *)
Definition checkpoint (h : sheap) (gr : gremlin) (label : arg)
  : option (option vref) :=
  as_ ← h !! g_state gr;
  Some (marks ← as_; marks !! property_key label).

Definition pipe_back : pipetype := λ g args gremlin state h,
  match gremlin with
  | None => Step Pull state h
  | Some gr =>
      match checkpoint h gr (arg0 args) with
      | None => Stuck
      | Some None => Step Pull state h
      | Some (Some targetVertex) =>
          let '(gr', h') := gotoVertex gr targetVertex h in
          Step (Emit gr') state h'
      end
  end.

Definition pipe_except : pipetype := λ g args gremlin state h,
  match gremlin with
  | None => Step Pull state h
  | Some gr =>
      match checkpoint h gr (arg0 args) with
      | None => Stuck
      | Some exceptVertex =>
          if bool_decide (Some (g_vertex gr) = exceptVertex) then Step Pull state h
          else Step (Emit gr) state h
      end
  end.

(** The tail of [merge], from [if (!state.vertices.length)] on. *)
Definition merge_next (gremlin : option gremlin) (vs : list vref)
    (state : stage_state) (h : sheap) : pipe_result :=
  match pop vs with
  | None => Step Pull (set_vertices vs state) h
  | Some (vertex, rest) =>
      let '(gr, h') := makeGremlin vertex (g_state <$> gremlin) h in
      Step (Emit gr) (set_vertices rest state) h'
  end.

Definition pipe_merge : pipetype := λ g args gremlin state h,
  match st_vertices state, gremlin with
  | None, None => Step Pull state h
  | Some ((_ :: _) as vs), _ => merge_next gremlin vs state h
  | _, None => TypeError                           (* [gremlin.state.as] of [false] *)
  | _, Some gr =>
      match h !! g_state gr with
      | None => Stuck
      | Some as_ =>
          let asState := default ∅ as_ in
          merge_next gremlin (omap (λ id, asState !! property_key id) args) state h
      end
  end.

Definition fauxPipetype : pipetype := λ g args gremlin state h,
  match gremlin with
  | Some gr => Step (Emit gr) state h
  | None => Step Pull state h
  end.

(** [Dagoba.Pipetypes], a dictionary filled by [addPipetype]. *)
Definition addPipetype (name : string) (fn : pipetype)
    (registry : gmap string pipetype) : gmap string pipetype :=
  <[name := fn]> registry.

Definition Pipetypes : gmap string pipetype :=
  addPipetype "merge" pipe_merge
  (addPipetype "except" pipe_except
  (addPipetype "back" pipe_back
  (addPipetype "as" pipe_as
  (addPipetype "take" pipe_take
  (addPipetype "filter" pipe_filter
  (addPipetype "unique" pipe_unique
  (addPipetype "property" pipe_property
  (addPipetype "out" (simpleTraversal "out")
  (addPipetype "in" (simpleTraversal "in")
  (addPipetype "vertex" pipe_vertex ∅)))))))))).

(** A call of what [Object.prototype] holds under [name], made where a stage
    is expected.  Under [__proto__] it holds an object, not a function, and
    the call throws.  Under the other names it holds functions of the
    platform; what they do with the arguments of a stage is theirs and is not
    followed. *)
Definition inherited_call (name : string) : pipetype := λ g args gremlin state h,
  if bool_decide (name = "__proto__") then TypeError else Stuck.

(** [Dagoba.getPipetype(name)]: the registry is a plain object, so a name that
    is not registered but is inherited finds the inherited value, which is
    truthy and is returned as the stage; any other name that is not
    registered finds [undefined], and [fauxPipetype] stands in for it. *)
Definition getPipetype (registry : gmap string pipetype) (name : string) : pipetype :=
  match registry !! name with
  | Some stage => stage
  | None => if inherited name then inherited_call name else fauxPipetype
  end.

(** ** Transformers *)

Record transformer : Type := Transformer {
  priority : Z;
  fn : list step → list step
}.

(** [T.splice(i, 0, x)] *)
Definition splice {A : Type} (i : nat) (x : A) (l : list A) : list A :=
  take i l ++ x :: drop i l.

(** The loop of [addTransformer], started at index [i]; [None] when [fuel]
    iterations do not finish it. *)
Fixpoint addTransformer_loop (fuel : nat) (t : transformer)
    (T : list transformer) (i : nat) : option (list transformer) :=
  match fuel with
  | O => None
  | S fuel' =>
      match T !! i with
      | None => Some T                                (* [i < T.length] fails *)
      | Some ti =>
          if (priority t >? priority ti)%Z then Some T   (* [break] *)
          else addTransformer_loop fuel' t (splice i t T) (S i)
      end
  end.

Definition addTransformer (fuel : nat) (f : list step → list step) (p : Z)
    (T : list transformer) : option (list transformer) :=
  addTransformer_loop fuel {| priority := p; fn := f |} T 0.

Definition transform (T : list transformer) (program : list step) : list step :=
  foldl (λ acc t, fn t acc) program T.

(** ** The engine *)

(** [array[i]] *)
Definition at_index {A : Type} (l : list A) (i : Z) : option A :=
  if (i <? 0)%Z then None else l !! Z.to_nat i.

Record engine : Type := Engine {
  pc : Z;
  done : Z;
  maybeGremlin : option gremlin;
  states : gmap Z stage_state;      (* [this.state] *)
  heap : sheap
}.

(** Lines 159-163: the stage at [pc] is called on the carried gremlin and its
    own state object. *)
Definition call_stage (registry : gmap string pipetype) (g : graph)
    (program : list step) (c : engine) : pipe_result :=
  match at_index program (pc c) with
  | None => TypeError
  | Some (name, args) =>
      let state := default empty_state (states c !! pc c) in
      getPipetype registry name g args (maybeGremlin c) state (heap c)
  end.

(** [maybeGremlin.result != null ? maybeGremlin.result : maybeGremlin.vertex] *)
Definition yielded (gr : gremlin) : value :=
  if nullish (g_result gr) then VVertex (g_vertex gr) else g_result gr.

(** Lines 180-188: [pc++], and past the last stage the carried gremlin is
    yielded. *)
Definition move_on (max : Z) (pc' done' : Z) (carry : option gremlin)
    (sts : gmap Z stage_state) (h : sheap) : engine * option value :=
  if (pc' + 1 >? max)%Z then
    ({| pc := pc'; done := done'; maybeGremlin := None; states := sts; heap := h |},
     yielded <$> carry)
  else
    ({| pc := pc' + 1; done := done'; maybeGremlin := carry; states := sts; heap := h |},
     None).

(** Lines 165-188: what the loop does with the signal. *)
Definition settle (max : Z) (c : engine) (s : signal) (state : stage_state)
    (h : sheap) : engine * option value :=
  let sts := <[pc c := state]> (states c) in
  match s with
  | Pull =>
      if (pc c - 1 >? done c)%Z then
        ({| pc := pc c - 1; done := done c; maybeGremlin := None;
            states := sts; heap := h |}, None)
      else move_on max (pc c) (pc c) None sts h
  | Done => move_on max (pc c) (pc c) None sts h
  | Emit gr => move_on max (pc c) (done c) (Some gr) sts h
  | Empty => move_on max (pc c) (done c) None sts h
  end.

Inductive status : Type :=
  | Halted          (* the loop condition failed *)
  | Threw           (* a stage threw *)
  | Dangling        (* a call was [Stuck] *)
  | OutOfFuel.

(** The [while (done < max)] loop, for at most [fuel] iterations: the values
    yielded, in order, and how the loop ended. *)
Fixpoint loop (registry : gmap string pipetype) (g : graph) (program : list step)
    (fuel : nat) (c : engine) : list value * status :=
  let max := (Z.of_nat (length program) - 1)%Z in
  if (done c <? max)%Z then
    match fuel with
    | O => ([], OutOfFuel)
    | S fuel' =>
        match call_stage registry g program c with
        | TypeError => ([], Threw)
        | Stuck => ([], Dangling)
        | Step s state h =>
            let '(c', out) := settle max c s state h in
            let '(outs, fin) := loop registry g program fuel' c' in
            (option_list out ++ outs, fin)
        end
    end
  else ([], Halted).

(** One call of a stage, as the loop makes it: position, gremlin handed in,
    signal returned. *)
Record call : Type := Call {
  call_pc : Z;
  call_in : option gremlin;
  call_out : signal
}.

(** The calls the loop makes, in order. *)
Fixpoint calls (registry : gmap string pipetype) (g : graph) (program : list step)
    (fuel : nat) (c : engine) : list call :=
  let max := (Z.of_nat (length program) - 1)%Z in
  if (done c <? max)%Z then
    match fuel with
    | O => []
    | S fuel' =>
        match call_stage registry g program c with
        | Step s state h =>
            {| call_pc := pc c; call_in := maybeGremlin c; call_out := s |}
            :: calls registry g program fuel' (settle max c s state h).1
        | _ => []
        end
    end
  else [].

Record query : Type := Query {
  q_graph : graph;
  q_state : gmap Z stage_state;
  q_program : list step
}.

(** [Dagoba.query(graph)] and [Q.add]. *)
Definition Dagoba_query (g : graph) : query :=
  {| q_graph := g; q_state := ∅; q_program := [] |}.

Definition add (q : query) (name : string) (args : list arg) : query :=
  {| q_graph := q_graph q; q_state := q_state q;
     q_program := q_program q ++ [(name, args)] |}.

(** [graph.v(...)] *)
Definition v (g : graph) (args : list arg) : query := add (Dagoba_query g) "vertex" args.

(** The engine as [Q.run] starts it, after the program is transformed. *)
Definition start (program : list step) (sts : gmap Z stage_state) (h : sheap) : engine :=
  {| pc := Z.of_nat (length program) - 1; done := -1; maybeGremlin := None;
     states := sts; heap := h |}.

Definition run (T : list transformer) (registry : gmap string pipetype)
    (q : query) (h : sheap) (fuel : nat) : list value * status :=
  let program := transform T (q_program q) in
  loop registry (q_graph q) program fuel (start program (q_state q) h).

(** ** Snapshots *)

(** What [JSON.stringify] followed by [JSON.parse] makes of the value under a
    key of an object: a number that is not finite is written [null]; a key
    whose value is [undefined] is left out, and reads [undefined] afterwards;
    [null], booleans, finite numbers and strings come back as they were. *)
Definition json_value (p : prim) : prim :=
  match p with
  | PNaN | PInf _ => PNull
  | _ => p
  end.

(** The same for a dictionary of primitives. *)
Definition json_props (m : gmap string prim) : gmap string prim :=
  json_value <$> filter (λ kp, kp.2 ≠ PUndef) m.

(** A vertex under the replacer [Dagoba.cleanVertex]: [_in] and [_out] are
    dropped.  An edge under [Dagoba.cleanEdge]: [_in] and [_out] become the
    [_id] of the vertex they hold. *)
Definition cleanVertex (vx : vertex) : vertex_arg :=
  {| va_id := json_value (v_id vx); va_out := None; va_in := None;
     va_props := json_props (v_props vx) |}.

Definition cleanEdge (g : graph) (e : edge) : edge_arg :=
  {| ea_out := json_value (id_of g (e_out e));
     ea_in := json_value (id_of g (e_in e));
     ea_label := json_value (e_label e);
     ea_props := json_props (e_props e) |}.

(** The object that [JSON.parse] returns on the text built by
    [Dagoba.jsonify]; printing and parsing the text are the platform's. *)
Record snapshot : Type := Snapshot {
  V : list vertex_arg;
  E : list edge_arg
}.

Definition jsonify (g : graph) : snapshot :=
  {| V := omap (λ r, cleanVertex <$> vheap g !! r) (Map_values (vertices g));
     E := omap (λ r, cleanEdge g <$> eheap g !! r) (Map_values (edges g)) |}.

Definition fromString (s : snapshot) : graph :=
  Dagoba_graph (Some (V s)) (Some (E s)).

(** ** Sequences of insertions and the properties stated of stores *)

Inductive insertion : Type :=
  | InsVertex (vx : vertex_arg)
  | InsEdge (e : edge_arg).

Definition insert (g : graph) (i : insertion) : graph :=
  match i with
  | InsVertex vx => (addVertex g vx).1
  | InsEdge e => (addEdge g e).1
  end.

Definition insert_all (g : graph) (l : list insertion) : graph := foldl insert g l.

(** How often the edge [r] occurs in an adjacency array. *)
Definition occurrences (r : eref) (l : list eref) : nat :=
  length (filter (λ x, x = r) l).

(** Edge endpoint integrity: every indexed edge has both endpoints among the
    indexed vertices, occurs once in the out-array of its source, once in the
    in-array of its target, and in no other adjacency array. *)
Definition edge_integrity (g : graph) : Prop :=
  ∀ key r, Map_get key (edgeIndex g) = Some r →
    ∃ e, eheap g !! r = Some e ∧
      (∃ id, Map_get id (vertexIndex g) = Some (e_out e)) ∧
      (∃ id, Map_get id (vertexIndex g) = Some (e_in e)) ∧
      ∀ w vx, vheap g !! w = Some vx →
        occurrences r (v_out vx) = (if decide (w = e_out e) then 1 else 0)%nat ∧
        occurrences r (v_in vx) = (if decide (w = e_in e) then 1 else 0)%nat.

(** An insertion is plain when a vertex brings no adjacency array of its own
    and an id assigned from the counter is not yet indexed. *)
Definition plain (g : graph) (i : insertion) : bool :=
  match i with
  | InsVertex vx =>
      bool_decide (va_out vx = None) && bool_decide (va_in vx = None)
      && (truthy (va_id vx) || negb (Map_has (PNum (autoid g)) (vertexIndex g)))
  | InsEdge _ => true
  end.

Fixpoint all_plain (g : graph) (l : list insertion) : bool :=
  match l with
  | [] => true
  | i :: l' => plain g i && all_plain (insert g i) l'
  end.

(** The values that a snapshot keeps as they are.  A label may be missing:
    [_label] then reads [undefined] before and after. *)
Definition json_keeps (p : prim) : bool := bool_decide (json_value p = p).

Definition json_keeps_props (m : gmap string prim) : bool :=
  bool_decide (json_props m = m).

(** A store is JSON-safe when the ids and the property values of the vertices
    in its map, and the endpoint ids, the labels and the property values of
    the edges in its map, are [null], booleans, finite numbers or strings. *)
Definition json_safe (g : graph) : bool :=
  forallb (λ r, match vheap g !! r with
                | Some vx => json_keeps (v_id vx) && json_keeps_props (v_props vx)
                | None => true
                end)
          (Map_values (vertices g))
  && forallb (λ r, match eheap g !! r with
                   | Some e =>
                       json_keeps (id_of g (e_out e)) && json_keeps (id_of g (e_in e))
                       && json_keeps (e_label e) && json_keeps_props (e_props e)
                   | None => true
                   end)
             (Map_values (edges g)).

(** The vertices of a store as the pairs of id and properties, and its edges
    as key, endpoint ids, label and properties, both in [Map] order. *)
Definition vertex_rows (g : graph) : list (prim * option (prim * gmap string prim)) :=
  (λ kr, (kr.1, (λ vx, (v_id vx, v_props vx)) <$> vheap g !! kr.2))
    <$> vertices g.

Definition edge_rows (g : graph)
  : list (string * option (prim * prim * prim * gmap string prim)) :=
  (λ kr, (kr.1, (λ e, (id_of g (e_out e), id_of g (e_in e), e_label e, e_props e))
                  <$> eheap g !! kr.2))
    <$> edges g.

(** The row that a vertex or an edge handed to an insertion will make. *)
Definition vertex_row_of_arg (vx : vertex_arg)
  : prim * option (prim * gmap string prim) :=
  (va_id vx, Some (va_id vx, va_props vx)).

Definition edge_row_of_arg (e : edge_arg)
  : string * option (prim * prim * prim * gmap string prim) :=
  (edge_key (ea_out e) (ea_in e) (ea_label e),
   Some (ea_out e, ea_in e, ea_label e, ea_props e)).


(** ** The store of the scenarios *)

Definition named (id : Z) (name : string) : vertex_arg :=
  {| va_id := PNum id; va_out := None; va_in := None;
     va_props := {[ "name" := PStr name ]} |}.

Definition knows_1_2 : edge_arg :=
  {| ea_out := PNum 1; ea_in := PNum 2; ea_label := PStr "knows"; ea_props := ∅ |}.

Definition scenario_store : graph :=
  Dagoba_graph (Some [named 1 "a"; named 2 "b"]) (Some [knows_1_2]).

(** A store that holds one vertex, under the id [Infinity]. *)
Definition infinite_store : graph :=
  Dagoba_graph (Some [{| va_id := PInf false; va_out := None; va_in := None;
                         va_props := {[ "name" := PStr "a" ]} |}]) None.

(** Scenario B: all vertices, then [property("name")]. *)
Definition scenario_B : query :=
  add (v scenario_store []) "property" [APrim (PStr "name")].

(** Scenario C: vertex 1, [as("start")], [out("knows")], [back("start")]. *)
Definition scenario_C : query :=
  add (add (add (v scenario_store [APrim (PNum 1)])
                "as" [APrim (PStr "start")])
           "out" [APrim (PStr "knows")])
      "back" [APrim (PStr "start")].

(** Vertex 1 marked under two labels and merged on both. *)
Definition merge_query : query :=
  add (add (add (v scenario_store [APrim (PNum 1)])
                "as" [APrim (PStr "a")])
           "as" [APrim (PStr "b")])
      "merge" [APrim (PStr "a"); APrim (PStr "b")].




(** ** Aliases *)

(** [function () {}], the stage that [addAlias] registers under the new name.
    It returns [undefined], which passes none of the loop's tests (['pull'],
    ['done'], truthiness), as [false] does. *)
Definition noop : pipetype := λ g args gremlin state h, Step Empty state h.

(** [typeof a === 'undefined'] *)
Definition is_undefined (a : arg) : bool :=
  match a with APrim PUndef => true | _ => false end.

(** [Dagoba.extend(list, defaults)] on two arrays: the indices of [defaults]
    are visited in order, and an index where the first array holds nothing or
    [undefined] receives the default. *)
Fixpoint extend (args defaults : list arg) : list arg :=
  match defaults, args with
  | [], _ => args
  | d :: ds, [] => d :: extend [] ds
  | d :: ds, a :: l => (if is_undefined a then d else a) :: extend l ds
  end.

(** The transformer that [addAlias] builds. *)
Definition alias_rewrite (newname oldname : string) (defaults : list arg)
    (program : list step) : list step :=
  (λ step : step, if bool_decide (step.1 ≠ newname) then step
                  else (oldname, extend step.2 defaults)) <$> program.

(** [Dagoba.addAlias(newname, oldname, defaults)] on the stage registry and
    the transformer registry. *)
Definition addAlias (fuel : nat) (newname oldname : string) (defaults : list arg)
    (registry : gmap string pipetype) (T : list transformer)
  : option (gmap string pipetype * list transformer) :=
  let registry' := addPipetype newname noop registry in
  T' ← addTransformer fuel (alias_rewrite newname oldname defaults) 100 T;
  Some (registry', T').

(** ** Notions used to state properties of the engine *)

(** The counter of the [take] stage at position [pos]. *)
Definition taken_at (c : engine) (pos : Z) : Z :=
  default 0 (states c !! pos ≫= st_taken).

(** How many gremlins the stage at position [pos] returned. *)
Definition is_emit (s : signal) : bool :=
  match s with Emit _ => true | _ => false end.

Definition emit_count (pos : Z) (l : list call) : nat :=
  length (List.filter (λ x, bool_decide (call_pc x = pos) && is_emit (call_out x)) l).

(** A traversal state with pending edges also holds the gremlin they
    belong to. *)
Definition kept (st : stage_state) : Prop :=
  no_edges st = false → is_Some (st_gremlin st).

(** An insertion that brings no adjacency array: the vertex it stores
    receives two new arrays of its own. *)
Definition no_arrays (i : insertion) : bool :=
  match i with
  | InsVertex vx => bool_decide (va_out vx = None) && bool_decide (va_in vx = None)
  | InsEdge _ => true
  end.

(** A store is closed when every reference in its maps, in its adjacency
    arrays and in its edges points to an object of its heaps. *)
Record store_closed (g : graph) : Prop := StoreClosed {
  cl_vertices : ∀ id r, (id, r) ∈ vertices g → (r < length (vheap g))%nat;
  cl_index : ∀ id r, Map_get id (vertexIndex g) = Some r → (r < length (vheap g))%nat;
  cl_arrays : ∀ w vx, vheap g !! w = Some vx →
      Forall (λ r, (r < length (eheap g))%nat) (v_out vx)
      ∧ Forall (λ r, (r < length (eheap g))%nat) (v_in vx);
  cl_ends : ∀ r e, eheap g !! r = Some e →
      (e_out e < length (vheap g))%nat ∧ (e_in e < length (vheap g))%nat
}.

(** The same for what a run holds: gremlins, the marks of their state objects
    and the state objects of the stages. *)
Definition gremlin_ok (g : graph) (h : sheap) (gr : gremlin) : Prop :=
  (g_vertex gr < length (vheap g))%nat ∧ (g_state gr < length h)%nat.

Definition heap_ok (g : graph) (h : sheap) : Prop :=
  ∀ s marks label r, h !! s = Some (Some marks) → marks !! label = Some r →
    (r < length (vheap g))%nat.

Definition state_ok (g : graph) (h : sheap) (st : stage_state) : Prop :=
  (∀ vs, st_vertices st = Some vs → Forall (λ r, (r < length (vheap g))%nat) vs)
  ∧ (∀ es, st_edges st = Some es → Forall (λ r, (r < length (eheap g))%nat) es)
  ∧ (∀ gr, st_gremlin st = Some gr → gremlin_ok g h gr)
  ∧ kept st.

Definition engine_ok (g : graph) (c : engine) : Prop :=
  heap_ok g (heap c)
  ∧ (∀ pos st, states c !! pos = Some st → state_ok g (heap c) st)
  ∧ (∀ gr, maybeGremlin c = Some gr → gremlin_ok g (heap c) gr).

(** A stage that, on a closed run, returns a signal and leaves the run
    closed: it neither throws nor meets a reference without an object. *)
Definition stage_total (g : graph) (p : pipetype) : Prop :=
  ∀ args gremlin st h,
    heap_ok g h → state_ok g h st →
    (∀ gr, gremlin = Some gr → gremlin_ok g h gr) →
    ∃ s st' h', p g args gremlin st h = Step s st' h'
      ∧ (length h ≤ length h')%nat ∧ heap_ok g h' ∧ state_ok g h' st'
      ∧ (∀ gr, s = Emit gr → gremlin_ok g h' gr).

(** [g.v().take(1)] on the store of the scenarios. *)
Definition take_query : query :=
  add (v scenario_store []) "take" [APrim (PNum 1)].

(** The cursors are in range: [done] is at least -1 and, while the loop
    runs, [pc] is a position of the program beyond [done]. *)
Definition in_range (max : Z) (c : engine) : Prop :=
  (-1 ≤ done c)%Z ∧ ((done c < max)%Z → (done c < pc c ≤ max)%Z ∧ (0 ≤ pc c)%Z).

(** ** The invariant of reachable stores *)

Record wf_store (g : graph) : Prop := WfStore {
  wf_vindex : vertexIndex g = vertices g;
  wf_eindex : edgeIndex g = edges g;
  wf_autoid : (0 < autoid g)%Z;
  wf_vkeys : NoDup (Map_keys (vertices g));
  wf_vvals : NoDup (Map_values (vertices g));
  wf_vobj : ∀ id r, (id, r) ∈ vertices g →
      truthy id = true ∧ ∃ vx, vheap g !! r = Some vx ∧ v_id vx = id;
  wf_ekeys : NoDup (Map_keys (edges g));
  wf_eobj : ∀ k r, (k, r) ∈ edges g →
      ∃ e, eheap g !! r = Some e
           ∧ k = edge_key (id_of g (e_out e)) (id_of g (e_in e)) (e_label e);
  wf_ends : ∀ r e, eheap g !! r = Some e →
      (e_out e < length (vheap g))%nat ∧ (e_in e < length (vheap g))%nat
      ∧ is_Some (Map_get (id_of g (e_out e)) (vertices g))
      ∧ is_Some (Map_get (id_of g (e_in e)) (vertices g))
}.

(** The invariant of stores built by plain insertions: the index and the heap
    of vertices agree in both directions, every edge object sits once in the
    out-array of its source and once in the in-array of its target and nowhere
    else, and no array mentions an edge that is not yet allocated. *)
Record linked (g : graph) : Prop := Linked {
  lk_index : ∀ id r, Map_get id (vertexIndex g) = Some r →
      v_id <$> vheap g !! r = Some id;
  lk_indexed : ∀ w vx, vheap g !! w = Some vx →
      Map_get (v_id vx) (vertexIndex g) = Some w;
  lk_edges : ∀ r e, eheap g !! r = Some e →
      (e_out e < length (vheap g))%nat ∧ (e_in e < length (vheap g))%nat
      ∧ ∀ w vx, vheap g !! w = Some vx →
          occurrences r (v_out vx) = (if decide (w = e_out e) then 1 else 0)%nat
          ∧ occurrences r (v_in vx) = (if decide (w = e_in e) then 1 else 0)%nat;
  lk_fresh : ∀ w vx r, vheap g !! w = Some vx → (length (eheap g) ≤ r)%nat →
      occurrences r (v_out vx) = 0%nat ∧ occurrences r (v_in vx) = 0%nat;
  lk_eindex : ∀ k r, Map_get k (edgeIndex g) = Some r → (r < length (eheap g))%nat
}.

(* ===================================================================== *)
(** * Properties *)
(* ===================================================================== *)

(** ** Facts about the [Map] model *)

Section JsMap_facts.
Context {K V : Type} `{EqDecision K}.
Implicit Types (m : list (K * V)) (k : K) (v : V).

Lemma Map_get_set_eq k v m : Map_get k (Map_set k v m) = Some v.
Proof.
  induction m as [|[k' v'] m IH]; simpl.
  - by rewrite decide_True.
  - destruct (decide (k = k')) as [->|Hne]; simpl.
    + by rewrite decide_True.
    + by rewrite decide_False.
Qed.

Lemma Map_get_set_ne k k' v m :
  k ≠ k' → Map_get k' (Map_set k v m) = Map_get k' m.
Proof.
  intros Hne. induction m as [|[k0 v0] m IH]; simpl.
  - by rewrite decide_False.
  - destruct (decide (k = k0)) as [->|Hk]; simpl.
    + by rewrite !decide_False.
    + by rewrite IH.
Qed.

Lemma Map_set_fresh k v m : Map_get k m = None → Map_set k v m = m ++ [(k, v)].
Proof.
  induction m as [|[k' v'] m IH]; simpl; [done|].
  destruct (decide (k = k')); [done|]. intros Hm. by rewrite IH.
Qed.

Lemma Map_get_elem k v m : Map_get k m = Some v → (k, v) ∈ m.
Proof.
  induction m as [|[k' v'] m IH]; simpl; [done|].
  destruct (decide (k = k')) as [->|]; intros Hm.
  - injection Hm as ->. left.
  - right. auto.
Qed.

Lemma Map_get_None k m : Map_get k m = None ↔ k ∉ Map_keys m.
Proof.
  unfold Map_keys. induction m as [|[k' v'] m IH]; simpl.
  - split; [intros _; apply not_elem_of_nil | done].
  - rewrite not_elem_of_cons. destruct (decide (k = k')) as [->|]; [|tauto].
    split; [done | tauto].
Qed.

Lemma Map_elem_get k v m : NoDup (Map_keys m) → (k, v) ∈ m → Map_get k m = Some v.
Proof.
  unfold Map_keys. induction m as [|[k' v'] m IH]; simpl.
  - intros _ Hin. by apply elem_of_nil in Hin.
  - intros Hnd Hin. apply NoDup_cons in Hnd as [Hk Hnd].
    apply elem_of_cons in Hin as [[= -> ->]|Hin].
    + by rewrite decide_True.
    + destruct (decide (k = k')) as [->|]; [|auto].
      destruct Hk. apply (list_elem_of_fmap_2 fst) in Hin. done.
Qed.

Lemma Map_set_elem k v k' v' m :
  (k', v') ∈ Map_set k v m → (k', v') = (k, v) ∨ (k', v') ∈ m.
Proof.
  induction m as [|[k0 v0] m IH]; simpl.
  - intros Hin. apply list_elem_of_singleton in Hin. by left.
  - destruct (decide (k = k0)) as [->|Hne]; intros Hin.
    + apply elem_of_cons in Hin as [?|Hin]; [by left|]. right. by right.
    + apply elem_of_cons in Hin as [->|Hin]; [right; left|].
      destruct (IH Hin) as [?|?]; [by left|]. right. by right.
Qed.

Lemma Map_elem_set k v k' v' m :
  (k', v') ∈ m → k' ≠ k → (k', v') ∈ Map_set k v m.
Proof.
  intros Hin Hne. induction m as [|[k0 v0] m IH]; simpl.
  - by apply elem_of_nil in Hin.
  - apply elem_of_cons in Hin as [[= <- <-]|Hin].
    + rewrite decide_False by done. left.
    + destruct (decide (k = k0)); right; auto.
Qed.

Lemma Map_keys_set k v m :
  Map_keys (Map_set k v m)
  = if Map_has k m then Map_keys m else Map_keys m ++ [k].
Proof.
  unfold Map_keys, Map_has. induction m as [|[k0 v0] m IH]; [done|].
  cbn [Map_set Map_get].
  destruct (decide (k = k0)) as [->|]; [done|].
  rewrite !fmap_cons, IH. by destruct (Map_get k m).
Qed.

Lemma Map_has_true k m : Map_has k m = true ↔ is_Some (Map_get k m).
Proof.
  unfold Map_has. destruct (Map_get k m); split; done || by intros [? ?].
Qed.

Lemma Map_has_false k m : Map_has k m = false ↔ Map_get k m = None.
Proof. unfold Map_has. by destruct (Map_get k m). Qed.

Lemma Map_keys_set_NoDup k v m :
  NoDup (Map_keys m) → NoDup (Map_keys (Map_set k v m)).
Proof.
  intros Hnd. rewrite Map_keys_set.
  destruct (Map_has k m) eqn:Hhas; [done|].
  apply NoDup_app. split_and!; [done| |apply NoDup_singleton].
  intros x Hx Hx'. apply list_elem_of_singleton in Hx' as ->.
  apply Map_has_false, Map_get_None in Hhas. done.
Qed.

Lemma Map_values_set_NoDup k v m :
  NoDup (Map_values m) → v ∉ Map_values m → NoDup (Map_values (Map_set k v m)).
Proof.
  unfold Map_values. induction m as [|[k0 v0] m IH]; simpl.
  - intros _ _. apply NoDup_singleton.
  - intros Hnd Hv. apply NoDup_cons in Hnd as [Hv0 Hnd].
    apply not_elem_of_cons in Hv as [Hne Hv].
    destruct (decide (k = k0)) as [->|]; simpl.
    + apply NoDup_cons. done.
    + apply NoDup_cons. split; [|auto].
      intros Hin. apply list_elem_of_fmap in Hin as [[k1 v1] [-> Hin]].
      apply Map_set_elem in Hin as [[= _ ->]|Hin]; [done|].
      apply Hv0. by apply (list_elem_of_fmap_2 snd) in Hin.
Qed.

Lemma Map_get_set_is_Some k k' v m :
  is_Some (Map_get k' m) → is_Some (Map_get k' (Map_set k v m)).
Proof.
  intros Hs. destruct (decide (k = k')) as [->|Hne].
  - rewrite Map_get_set_eq. by eexists.
  - by rewrite Map_get_set_ne.
Qed.
End JsMap_facts.

(** ** The store: insertions keep the invariant *)

Local Arguments id_of : simpl never.

Lemma id_of_eq g g' r :
  v_id <$> vheap g' !! r = v_id <$> vheap g !! r → id_of g' r = id_of g r.
Proof. unfold id_of. by intros ->. Qed.

(** What [push] leaves alone reads the same after it. *)
Lemma lookup_alter_proj {B : Type} (proj : vertex → B) (l : list vertex)
    (f : vertex → vertex) (i w : nat) :
  (∀ x, proj (f x) = proj x) → proj <$> alter f i l !! w = proj <$> l !! w.
Proof.
  intros Hf. destruct (decide (i = w)) as [->|Hne].
  - rewrite list_lookup_alter_eq. destruct (l !! w); simpl; [|done]. by rewrite Hf.
  - by rewrite list_lookup_alter_ne.
Qed.

Lemma lookup_linked_id (l : list vertex) (r ov iv w : nat) :
  v_id <$> alter (push_in r) iv (alter (push_out r) ov l) !! w = v_id <$> l !! w.
Proof. rewrite !lookup_alter_proj; done. Qed.

Lemma empty_graph_wf : wf_store empty_graph.
Proof.
  constructor; simpl; try done; try apply NoDup_nil_2.
  - intros ?? Hin. by apply elem_of_nil in Hin.
  - intros ?? Hin. by apply elem_of_nil in Hin.
Qed.

Lemma store_vertex_wf g id vx next :
  wf_store g → truthy id = true → (0 < next)%Z → wf_store (store_vertex g id vx next).1.
Proof.
  intros Hwf Hid Hnext.
  assert (Hold : ∀ r, (r < length (vheap g))%nat →
     (vheap g ++ [{| v_id := id; v_out := default [] (va_out vx);
                     v_in := default [] (va_in vx); v_props := va_props vx |}]) !! r
     = vheap g !! r) by (intros; by apply lookup_app_l).
  assert (Hval : ∀ k r, (k, r) ∈ vertices g → (r < length (vheap g))%nat).
  { intros k r Hin. destruct (wf_vobj g Hwf k r Hin) as (_ & x & Hx & _).
    by apply lookup_lt_Some in Hx. }
  constructor; simpl.
  - by rewrite (wf_vindex g Hwf).
  - apply (wf_eindex g Hwf).
  - done.
  - apply Map_keys_set_NoDup, (wf_vkeys g Hwf).
  - apply Map_values_set_NoDup; [apply (wf_vvals g Hwf)|].
    intros Hin. apply list_elem_of_fmap in Hin as [[k r] [Hr Hin]]. simpl in Hr.
    apply Hval in Hin. lia.
  - intros k r Hin. apply Map_set_elem in Hin as [[= -> ->]|Hin].
    + split; [done|]. eexists.
      split; [rewrite lookup_app_r by lia; by rewrite Nat.sub_diag | done].
    + destruct (wf_vobj g Hwf k r Hin) as (Ht & x & Hx & Hxid).
      split; [done|]. exists x. split; [|done].
      rewrite Hold; [done|]. by apply lookup_lt_Some in Hx.
  - apply (wf_ekeys g Hwf).
  - intros k r Hin. destruct (wf_eobj g Hwf k r Hin) as (e & He & Hk).
    exists e. split; [done|].
    destruct (wf_ends g Hwf r e He) as (Ho & Hi & _).
    rewrite Hk. unfold id_of; simpl. by rewrite !Hold.
  - intros r e He. destruct (wf_ends g Hwf r e He) as (Ho & Hi & Hso & Hsi).
    rewrite length_app. simpl. split_and!; try lia.
    + unfold id_of in *; simpl. rewrite Hold by done. by apply Map_get_set_is_Some.
    + unfold id_of in *; simpl. rewrite Hold by done. by apply Map_get_set_is_Some.
Qed.

Lemma addVertex_wf g vx : wf_store g → wf_store (addVertex g vx).1.
Proof.
  intros Hwf. unfold addVertex.
  pose proof (wf_autoid g Hwf) as Hauto.
  destruct (truthy (va_id vx)) eqn:Hid; simpl.
  - destruct (Map_has (va_id vx) (vertexIndex g)); [done|].
    by apply store_vertex_wf.
  - apply store_vertex_wf; [done| |lia].
    simpl. apply negb_true_iff, Z.eqb_neq. lia.
Qed.

Lemma addEdge_wf g e : wf_store g → wf_store (addEdge g e).1.
Proof.
  intros Hwf. unfold addEdge, findVertexById.
  rewrite (wf_vindex g Hwf).
  destruct (Map_get (ea_in e) (vertices g)) as [iv|] eqn:Hiv; [|done].
  destruct (Map_get (ea_out e) (vertices g)) as [ov|] eqn:Hov; [|done].
  simpl.
  destruct (wf_vobj g Hwf _ _ (Map_get_elem _ _ _ Hiv)) as (_ & xi & Hxi & Hxi_id).
  destruct (wf_vobj g Hwf _ _ (Map_get_elem _ _ _ Hov)) as (_ & xo & Hxo & Hxo_id).
  set (r := length (eheap g)).
  assert (Hid : ∀ w, id_of
     {| vheap := alter (push_in r) iv (alter (push_out r) ov (vheap g));
        eheap := eheap g ++ [{| e_out := ov; e_in := iv; e_label := ea_label e;
                                e_props := ea_props e |}];
        vertices := vertices g;
        edges := Map_set (edge_key (id_of g ov) (id_of g iv) (ea_label e)) r (edges g);
        vertexIndex := vertices g;
        edgeIndex := Map_set (edge_key (id_of g ov) (id_of g iv) (ea_label e)) r
                       (edgeIndex g);
        autoid := autoid g |} w = id_of g w).
  { intros w. apply id_of_eq. simpl. apply lookup_linked_id. }
  assert (Hnew : ∀ r' e', (eheap g ++ [{| e_out := ov; e_in := iv;
        e_label := ea_label e; e_props := ea_props e |}]) !! r' = Some e' →
      eheap g !! r' = Some e' ∨
      (r' = r ∧ e' = {| e_out := ov; e_in := iv; e_label := ea_label e;
                        e_props := ea_props e |})).
  { intros r' e' Hl. apply lookup_snoc_Some in Hl as [[? ?]|[? ?]]; [by left|].
    right. by subst. }
  constructor; simpl.
  - done.
  - by rewrite (wf_eindex g Hwf).
  - apply (wf_autoid g Hwf).
  - apply (wf_vkeys g Hwf).
  - apply (wf_vvals g Hwf).
  - intros k w Hin. destruct (wf_vobj g Hwf k w Hin) as (Ht & x & Hx & Hxid).
    split; [done|].
    pose proof (lookup_linked_id (vheap g) r ov iv w) as Hl.
    rewrite Hx in Hl. simpl in Hl.
    destruct (alter (push_in r) iv (alter (push_out r) ov (vheap g)) !! w) as [x'|];
      [|done].
    exists x'. split; [done|]. simpl in Hl. congruence.
  - apply Map_keys_set_NoDup, (wf_ekeys g Hwf).
  - intros k w Hin.
    apply Map_set_elem in Hin as [[= -> ->]|Hin].
    + eexists. split.
      * rewrite lookup_app_r by (unfold r; lia). unfold r. by rewrite Nat.sub_diag.
      * simpl. by rewrite !Hid.
    + destruct (wf_eobj g Hwf k w Hin) as (e' & He' & Hk).
      exists e'. split; [|by rewrite !Hid].
      rewrite lookup_app_l; [done|]. by apply lookup_lt_Some in He'.
  - intros w e' He'. rewrite !length_alter, !Hid.
    apply Hnew in He' as [He'|[-> ->]].
    + apply (wf_ends g Hwf w e' He').
    + simpl. apply lookup_lt_Some in Hxi as Hli. apply lookup_lt_Some in Hxo as Hlo.
      split_and!; [done|done|..].
      * unfold id_of. rewrite Hxo. simpl. rewrite Hxo_id, Hov. by eexists.
      * unfold id_of. rewrite Hxi. simpl. rewrite Hxi_id, Hiv. by eexists.
Qed.

Lemma reachable_wf g : reachable g → wf_store g.
Proof.
  induction 1 as [|g vx _ IH|g e _ IH].
  - apply empty_graph_wf.
  - by apply addVertex_wf.
  - by apply addEdge_wf.
Qed.

Section JsMap_counting.
Context {K V : Type} `{EqDecision K}.
Implicit Types (m : list (K * V)) (k : K) (v : V).

Lemma Map_key_absent k m :
  k ∉ Map_keys m → filter (λ kv, kv.1 = k) m = [].
Proof.
  unfold Map_keys. induction m as [|[k' v'] m IH]; [done|].
  rewrite fmap_cons, not_elem_of_cons. simpl. intros [Hne Hk].
  rewrite filter_cons, decide_False by (simpl; congruence). auto.
Qed.

Lemma Map_key_once k m :
  NoDup (Map_keys m) → is_Some (Map_get k m) →
  length (filter (λ kv, kv.1 = k) m) = 1%nat.
Proof.
  unfold Map_keys. induction m as [|[k' v'] m IH]; simpl.
  - intros _ [? ?]. done.
  - intros Hnd Hs. apply NoDup_cons in Hnd as [Hk Hnd].
    rewrite filter_cons. simpl. destruct (decide (k = k')) as [->|Hne].
    + rewrite decide_True by done. simpl. by rewrite Map_key_absent.
    + rewrite decide_False by done. auto.
Qed.

Lemma Map_value_key k1 k2 v m :
  NoDup (Map_values m) → (k1, v) ∈ m → (k2, v) ∈ m → k1 = k2.
Proof.
  unfold Map_values. induction m as [|[k' v'] m IH]; simpl.
  - intros _ Hin. by apply elem_of_nil in Hin.
  - intros Hnd H1 H2. apply NoDup_cons in Hnd as [Hv Hnd].
    apply elem_of_cons in H1 as [H1|H1]; apply elem_of_cons in H2 as [H2|H2].
    + congruence.
    + injection H1 as -> ->. destruct Hv. by apply (list_elem_of_fmap_2 snd) in H2.
    + injection H2 as -> ->. destruct Hv. by apply (list_elem_of_fmap_2 snd) in H1.
    + auto.
Qed.

Lemma Map_set_length k v m :
  length (Map_set k v m) = if Map_has k m then length m else S (length m).
Proof.
  rewrite <- !(length_fmap fst). fold (Map_keys (Map_set k v m)).
  rewrite Map_keys_set. destruct (Map_has k m); [done|].
  rewrite length_app. simpl. unfold Map_keys. lia.
Qed.
End JsMap_counting.

(** A supplied id is indexed once its insertion has been attempted. *)
Lemma addVertex_indexes g vx :
  truthy (va_id vx) = true → Map_has (va_id vx) (vertexIndex (addVertex g vx).1) = true.
Proof.
  intros Hid. unfold addVertex. rewrite Hid. simpl.
  destruct (Map_has (va_id vx) (vertexIndex g)) eqn:Hhas; simpl; [done|].
  apply Map_has_true. rewrite Map_get_set_eq. by eexists.
Qed.

Lemma reachable_index_truthy g id :
  reachable g → Map_has id (vertexIndex g) = true → truthy id = true.
Proof.
  intros Hwf%reachable_wf Hhas. apply Map_has_true in Hhas as [r Hr].
  rewrite (wf_vindex g Hwf) in Hr. apply Map_get_elem in Hr.
  by destruct (wf_vobj g Hwf id r Hr).
Qed.

(** The id that an insertion returns is indexed by it. *)
Lemma addVertex_returned_indexed g vx id :
  (addVertex g vx).2 = Returned id →
  Map_has id (vertexIndex (addVertex g vx).1) = true.
Proof.
  unfold addVertex, store_vertex.
  destruct (truthy (va_id vx)); simpl;
    [destruct (Map_has (va_id vx) (vertexIndex g)); [done|]|];
    simpl; intros [= <-]; apply Map_has_true; rewrite Map_get_set_eq; by eexists.
Qed.

(** In a reachable store an indexed id is refused, and is the id of one
    vertex. *)
Lemma addVertex_refuses_indexed g vx :
  reachable g → Map_has (va_id vx) (vertexIndex g) = true →
  addVertex g vx
  = (g, Failed ("A vertex with id " +:+ to_string (va_id vx) +:+ " already exists"))
  ∧ length (filter (λ kr, kr.1 = va_id vx) (vertices g)) = 1%nat.
Proof.
  intros Hreach Hhas. split.
  - unfold addVertex. rewrite (reachable_index_truthy g _ Hreach Hhas). simpl.
    by rewrite Hhas.
  - pose proof (reachable_wf g Hreach) as Hwf.
    apply Map_key_once; [apply (wf_vkeys g Hwf)|].
    rewrite <- (wf_vindex g Hwf). by apply Map_has_true.
Qed.

(** C5 as stated fails: the id 0 is falsy and [addVertex] takes it for no id.
    A vertex offered under it twice is stored twice, under the ids 1 and 2
    taken from the counter; no insertion is refused and no vertex has the
    id 0. *)
Lemma falsy_id_twice_is_stored_twice :
  let zero := {| va_id := PNum 0; va_out := None; va_in := None; va_props := ∅ |} in
  let g1 := (addVertex empty_graph zero).1 in
  let g2 := (addVertex g1 zero).1 in
  (addVertex empty_graph zero).2 = Returned (PNum 1)
  ∧ (addVertex g1 zero).2 = Returned (PNum 2)
  ∧ Map_keys (vertices g2) = [PNum 1; PNum 2]
  ∧ length (filter (λ kr, kr.1 = PNum 0) (vertices g2)) ≠ 1%nat.
Proof. by vm_compute. Qed.

(** C5, amended.  In a reachable store, inserting a vertex whose id is in the
    vertex index returns the failure signal and leaves the store as it was,
    with exactly one vertex under that id.  Inserting any other vertex
    succeeds: the id returned is the one supplied when it is truthy and the
    counter's value otherwise, and it leads to the new vertex object in the
    index and in the map.  A truthy id inserted twice is refused the second
    time and is the id of exactly one vertex; so is, whatever was supplied,
    the id that a successful insertion returned. *)
Theorem addVertex_duplicate_id g vx :
  reachable g →
  (Map_has (va_id vx) (vertexIndex g) = true →
     (∃ msg, addVertex g vx = (g, Failed msg)
             ∧ (prints_exactly (va_id vx) = true →
                msg = "A vertex with id " +:+ to_string (va_id vx)
                      +:+ " already exists"))
     ∧ length (filter (λ kr, kr.1 = va_id vx) (vertices g)) = 1%nat)
  ∧ (Map_has (va_id vx) (vertexIndex g) = false →
     let id := if truthy (va_id vx) then va_id vx else PNum (autoid g) in
     let g' := (addVertex g vx).1 in
     (addVertex g vx).2 = Returned id
     ∧ findVertexById g' id = Some (length (vheap g))
     ∧ Map_get id (vertices g') = Some (length (vheap g))
     ∧ vheap g' !! length (vheap g)
       = Some {| v_id := id; v_out := default [] (va_out vx);
                 v_in := default [] (va_in vx); v_props := va_props vx |})
  ∧ (∀ vx2, truthy (va_id vx) = true → va_id vx2 = va_id vx →
       let g1 := (addVertex g vx).1 in
       (∃ msg, addVertex g1 vx2 = (g1, Failed msg))
       ∧ length (filter (λ kr, kr.1 = va_id vx) (vertices g1)) = 1%nat)
  ∧ (∀ id vx2, (addVertex g vx).2 = Returned id → va_id vx2 = id →
       let g1 := (addVertex g vx).1 in
       (∃ msg, addVertex g1 vx2 = (g1, Failed msg))
       ∧ length (filter (λ kr, kr.1 = id) (vertices g1)) = 1%nat).
Proof.
  intros Hreach. split_and!.
  - intros Hhas. destruct (addVertex_refuses_indexed g vx Hreach Hhas) as [Hfail Hone].
    split; [|done]. eexists. split; [exact Hfail|done].
  - intros Hnew id g'. subst id g'. unfold addVertex, store_vertex, findVertexById.
    rewrite Hnew.
    destruct (truthy (va_id vx)); simpl; rewrite !Map_get_set_eq;
      (split_and!; [done|done|done|]);
      rewrite lookup_app_r by lia; by rewrite Nat.sub_diag.
  - intros vx2 Hid Heq g1.
    destruct (addVertex_refuses_indexed g1 vx2) as [Hfail Hone].
    + by apply reachable_vertex.
    + rewrite Heq. by apply addVertex_indexes.
    + rewrite <- Heq. split; [by eexists|done].
  - intros id vx2 Hret Heq g1.
    destruct (addVertex_refuses_indexed g1 vx2) as [Hfail Hone].
    + by apply reachable_vertex.
    + rewrite Heq. by apply addVertex_returned_indexed.
    + rewrite <- Heq. split; [by eexists|done].
Qed.

(** Scenario D: the vertex with id 1 inserted twice. *)
Lemma addVertex_duplicate_id_witness :
  let g1 := (addVertex empty_graph (named 1 "a")).1 in
  (addVertex empty_graph (named 1 "a")).2 = Returned (PNum 1)
  ∧ (∃ msg, addVertex g1 (named 1 "b") = (g1, Failed msg))
  ∧ length (vertices g1) = 1%nat.
Proof.
  intros g1.
  destruct (addVertex_duplicate_id empty_graph (named 1 "a") reachable_empty)
    as (_ & Hnew & Htwice & _).
  destruct (Hnew eq_refl) as (Hret & _).
  destruct (Htwice (named 1 "b") eq_refl eq_refl) as (Hfail & _).
  split_and!; [exact Hret | exact Hfail | reflexivity].
Defined.

(** C6.  In a reachable store whose counter equals an indexed id, inserting a
    vertex without an id returns that id with no failure signal, and the new
    vertex takes the place of the old one in the vertex map and in the index:
    no id leads to the old vertex any more and the map has not grown. *)
Theorem addVertex_autoid_collision g vx old :
  reachable g →
  truthy (va_id vx) = false →
  findVertexById g (PNum (autoid g)) = Some old →
  let g' := (addVertex g vx).1 in
  let new := length (vheap g) in
  (addVertex g vx).2 = Returned (PNum (autoid g))
  ∧ findVertexById g' (PNum (autoid g)) = Some new
  ∧ Map_get (PNum (autoid g)) (vertices g') = Some new
  ∧ new ≠ old
  ∧ (∀ id, findVertexById g' id ≠ Some old)
  ∧ (old ∉ Map_values (vertices g'))
  ∧ length (vertices g') = length (vertices g).
Proof.
  intros Hreach Hid Hold g' new. subst g' new.
  pose proof (reachable_wf g Hreach) as Hwf.
  pose proof (reachable_wf _ (reachable_vertex g vx Hreach)) as Hwf'.
  revert Hwf'. unfold addVertex, findVertexById in *. rewrite Hid. simpl.
  rewrite (wf_vindex g Hwf) in *. intros Hwf'.
  pose proof (Map_get_elem _ _ _ Hold) as Hin.
  destruct (wf_vobj g Hwf _ _ Hin) as (_ & x & Hx%lookup_lt_Some & _).
  assert (Hnone : ∀ id, Map_get id (Map_set (PNum (autoid g)) (length (vheap g))
                                     (vertices g)) ≠ Some old).
  { intros id Hget. destruct (decide (PNum (autoid g) = id)) as [<-|Hne].
    - rewrite Map_get_set_eq in Hget. injection Hget as Heq. lia.
    - rewrite Map_get_set_ne in Hget by done.
      apply Map_get_elem in Hget.
      by pose proof (Map_value_key _ _ _ _ (wf_vvals g Hwf) Hget Hin). }
  split_and!.
  - done.
  - apply Map_get_set_eq.
  - apply Map_get_set_eq.
  - lia.
  - done.
  - intros Hv. apply list_elem_of_fmap in Hv as [[k r] [Hr Hkr]]. simpl in Hr. subst r.
    apply (Hnone k). apply Map_elem_get; [|done]. apply (wf_vkeys _ Hwf').
  - rewrite Map_set_length.
    assert (Map_has (PNum (autoid g)) (vertices g) = true) as ->; [|done].
    apply Map_has_true. by eexists.
Qed.

(** The counter still stands at 1 after the id 1 has been supplied. *)
Lemma addVertex_autoid_collision_witness :
  let g := (addVertex empty_graph (named 1 "a")).1 in
  let vx := {| va_id := PUndef; va_out := None; va_in := None;
               va_props := {[ "name" := PStr "b" ]} |} in
  (addVertex g vx).2 = Returned (PNum 1)
  ∧ findVertexById (addVertex g vx).1 (PNum 1) = Some 1%nat
  ∧ findVertexById g (PNum 1) = Some 0%nat.
Proof.
  intros g vx.
  destruct (addVertex_autoid_collision g vx 0%nat) as (Hret & Hfind & _).
  - apply reachable_vertex, reachable_empty.
  - reflexivity.
  - reflexivity.
  - split_and!; [exact Hret | exact Hfind | reflexivity].
Defined.

(** C7.  When the id in [_out] or the id in [_in] of an edge finds no vertex,
    [addEdge] returns the failure signal, its message names a side that is
    missing ("in" when the target is missing, otherwise "out"), and the store
    is the one it was: heaps, adjacency arrays, maps and indices. *)
Theorem addEdge_missing_endpoint g e :
  findVertexById g (ea_out e) = None ∨ findVertexById g (ea_in e) = None →
  ∃ side,
    addEdge g e = (g, Failed ("That edge's " +:+ side +:+ " vertex wasn't found"))
    ∧ ((side = "out" ∧ findVertexById g (ea_out e) = None)
       ∨ (side = "in" ∧ findVertexById g (ea_in e) = None)).
Proof.
  intros Hmiss. unfold addEdge.
  destruct (findVertexById g (ea_in e)) as [iv|] eqn:Hin.
  - destruct (findVertexById g (ea_out e)) as [ov|] eqn:Hout.
    + by destruct Hmiss.
    + exists "out". split; [done|]. by left.
  - exists "in". split.
    + by destruct (findVertexById g (ea_out e)).
    + by right.
Qed.

(** The edge 1 -> 2 offered to a store that holds vertex 1 only. *)
Lemma addEdge_missing_endpoint_witness :
  let g := (addVertex empty_graph (named 1 "a")).1 in
  ∃ side,
    addEdge g knows_1_2 = (g, Failed ("That edge's " +:+ side +:+ " vertex wasn't found"))
    ∧ ((side = "out" ∧ findVertexById g (PNum 1) = None)
       ∨ (side = "in" ∧ findVertexById g (PNum 2) = None)).
Proof.
  intros g. apply (addEdge_missing_endpoint g knows_1_2). right. reflexivity.
Defined.

(** ** Transformers *)

Lemma splice_lookup_next {A : Type} (l : list A) (i : nat) (x y : A) :
  l !! i = Some y → splice i x l !! S i = Some y.
Proof.
  intros Hl. unfold splice. pose proof (lookup_lt_Some _ _ _ Hl) as Hlt.
  rewrite lookup_app_r by (rewrite length_take; lia).
  rewrite length_take, Nat.min_l by lia.
  replace (S i - i)%nat with 1%nat by lia. simpl.
  rewrite lookup_drop. by rewrite Nat.add_0_r.
Qed.

(** Once an iteration splices, every later one finds the same entry one place
    further and splices again. *)
Lemma addTransformer_loop_diverges fuel t T i ti :
  T !! i = Some ti → (priority t ≤ priority ti)%Z →
  addTransformer_loop fuel t T i = None.
Proof.
  revert T i. induction fuel as [|fuel IH]; intros T i Hl Hle; simpl; [done|].
  rewrite Hl. destruct (priority t >? priority ti)%Z eqn:Hgt.
  - apply Z.gtb_lt in Hgt. lia.
  - apply IH; [|done]. by apply splice_lookup_next.
Qed.

Lemma addTransformer_loop_returns fuel t T i T' :
  addTransformer_loop fuel t T i = Some T' → T' = T.
Proof.
  destruct fuel as [|fuel]; simpl; [done|].
  destruct (T !! i) as [ti|] eqn:Hl; [|congruence].
  destruct (priority t >? priority ti)%Z eqn:Hgt; [congruence|].
  rewrite (addTransformer_loop_diverges fuel t (splice i t T) (S i) ti); [done| |].
  - by apply splice_lookup_next.
  - rewrite Z.gtb_ltb in Hgt. apply Z.ltb_ge in Hgt. lia.
Qed.

(** C1.  [addTransformer] stores nothing: on the empty registry the loop body
    never runs, so the registry stays empty and [transform] returns the
    program as built; whenever a call returns at all, the registry is the one
    it was; and when the first entry has a priority not below the new one, the
    call splices for ever. *)
Theorem addTransformer_never_registers (f : list step → list step) (p : Z) :
  (∀ fuel, addTransformer (S fuel) f p [] = Some [])
  ∧ (∀ program, transform [] program = program)
  ∧ (∀ fuel T T', addTransformer fuel f p T = Some T' → T' = T)
  ∧ (∀ fuel T t0, T !! 0%nat = Some t0 → (p ≤ priority t0)%Z →
       addTransformer fuel f p T = None).
Proof.
  split_and!.
  - done.
  - done.
  - intros fuel T T'. apply addTransformer_loop_returns.
  - intros fuel T t0 Hl Hle. by apply (addTransformer_loop_diverges _ _ _ _ t0).
Qed.

(** An alias-like rewriter offered with priority 100, first to the empty
    registry and then to a registry that holds one entry of priority 100. *)
Lemma addTransformer_never_registers_witness :
  addTransformer 1 (λ program, program) 100 [] = Some []
  ∧ addTransformer 50 (λ program, program) 100
      [{| priority := 100; fn := λ program, program |}] = None.
Proof.
  destruct (addTransformer_never_registers (λ program, program) 100)
    as (Hempty & _ & _ & Hloop).
  split; [apply Hempty|].
  apply (Hloop 50%nat _ {| priority := 100; fn := λ program, program |});
    [reflexivity | simpl; lia].
Defined.

(** ** The engine: more fuel does not change a finished run *)

Lemma loop_more_fuel registry g program fuel k c outs fin :
  loop registry g program fuel c = (outs, fin) → fin ≠ OutOfFuel →
  loop registry g program (fuel + k) c = (outs, fin).
Proof.
  revert c outs. induction fuel as [|fuel IH]; intros c outs; simpl.
  - destruct (done c <? Z.of_nat (length program) - 1)%Z eqn:Hd.
    + intros [= <- <-] Hfin. by destruct Hfin.
    + intros [= <- <-] _. destruct k; simpl; by rewrite Hd.
  - destruct (done c <? Z.of_nat (length program) - 1)%Z; [|done].
    destruct (call_stage registry g program c) as [s st h| |]; [|done|done].
    destruct (settle _ c s st h) as [c' out].
    destruct (loop registry g program fuel c') as [outs' fin'] eqn:Hl.
    intros [= <- <-] Hfin. by rewrite (IH c' outs' Hl Hfin).
Qed.

Lemma calls_more_fuel registry g program fuel k c :
  (loop registry g program fuel c).2 ≠ OutOfFuel →
  calls registry g program (fuel + k) c = calls registry g program fuel c.
Proof.
  revert c. induction fuel as [|fuel IH]; intros c; simpl.
  - destruct (done c <? Z.of_nat (length program) - 1)%Z eqn:Hd.
    + intros Hfin. by destruct Hfin.
    + intros _. destruct k; simpl; by rewrite Hd.
  - destruct (done c <? Z.of_nat (length program) - 1)%Z; [|done].
    destruct (call_stage registry g program c) as [s st h| |]; [|done|done].
    destruct (settle _ c s st h) as [c' out] eqn:Hs. simpl.
    destruct (loop registry g program fuel c') as [outs' fin'] eqn:Hl.
    simpl. intros Hfin. f_equal. apply IH. by rewrite Hl.
Qed.

(** ** The scenarios *)

Lemma pop_snoc {A : Type} (l : list A) (x : A) : pop (l ++ [x]) = Some (x, l).
Proof. unfold pop. by rewrite reverse_snoc, reverse_involutive. Qed.

(** C2.  [merge] called with no gremlin on a state whose [vertices] array has
    been emptied throws; called with no gremlin while vertices are pending it
    emits a gremlin on a new state object, not the one of the gremlin that
    filled the array; and the engine makes both calls: the query that marks
    vertex 1 as "a" and "b" and merges on both yields twice and then throws. *)
Theorem merge_throws_once_drained :
  (∀ g args state h, pipe_merge g args None (set_vertices [] state) h = TypeError)
  ∧ (∀ g args vs vertex state h,
       pipe_merge g args None (set_vertices (vs ++ [vertex]) state) h
       = Step (Emit {| g_vertex := vertex; g_state := length h;
                       g_result := VPrim PUndef |})
              (set_vertices vs state) (h ++ [None]))
  ∧ (∀ k, run [] Pipetypes merge_query [] (9 + k)
          = ([VVertex 0%nat; VVertex 0%nat], Threw)).
Proof.
  split_and!.
  - done.
  - intros g args vs vertex state h. unfold pipe_merge, merge_next. simpl.
    destruct (vs ++ [vertex]) as [|x l] eqn:Hvs.
    { by destruct vs. }
    rewrite <- Hvs, pop_snoc. done.
  - intros k. unfold run. apply loop_more_fuel; [by vm_compute | done].
Qed.

(** C3 as stated fails: no run of scenario B yields "a" then "b". *)
Lemma scenario_B_not_a_then_b :
  ¬ ∃ fuel, (run [] Pipetypes scenario_B [] fuel).1
            = [VPrim (PStr "a"); VPrim (PStr "b")].
Proof.
  intros [fuel Hrun].
  destruct (decide (fuel < 9)%nat) as [Hlt|Hge].
  - do 9 (destruct fuel as [|fuel]; [by vm_compute in Hrun|]). lia.
  - replace fuel with (9 + (fuel - 9))%nat in Hrun by lia.
    unfold run in Hrun.
    rewrite (loop_more_fuel _ _ _ 9 _ _ [VPrim (PStr "b"); VPrim (PStr "a")] Halted)
      in Hrun; [done | by vm_compute | done].
Qed.

(** C3, amended.  Scenario B halts having yielded "b" and then "a": [vertex]
    pops its candidates from the end of the list of all vertices. *)
Theorem scenario_B_yields_b_then_a k :
  run [] Pipetypes scenario_B [] (9 + k)
  = ([VPrim (PStr "b"); VPrim (PStr "a")], Halted).
Proof. unfold run. apply loop_more_fuel; [by vm_compute | done]. Qed.

(** C9.  Scenario C halts having yielded one result, the vertex object with
    id 1 and name "a", and it comes back to it from elsewhere: [vertex] and
    [as] hand on a gremlin at that vertex, [out] receives it and returns one
    at the vertex with id 2, and [back] receives that one and returns a
    gremlin at the vertex with id 1 again, on the same state object. *)
Theorem scenario_C_returns_to_start k :
  run [] Pipetypes scenario_C [] (14 + k) = ([VVertex 0%nat], Halted)
  ∧ v_id <$> vheap scenario_store !! 0%nat = Some (PNum 1)
  ∧ (λ vx, v_props vx !! "name") <$> vheap scenario_store !! 0%nat
    = Some (Some (PStr "a"))
  ∧ v_id <$> vheap scenario_store !! 1%nat = Some (PNum 2)
  ∧ List.filter (λ x, is_emit (call_out x))
      (calls Pipetypes scenario_store (q_program scenario_C) (14 + k)
         (start (q_program scenario_C) ∅ []))
    = (let at_vertex r :=
         {| g_vertex := r; g_state := 0%nat; g_result := VPrim PUndef |} in
       [ {| call_pc := 0; call_in := None; call_out := Emit (at_vertex 0%nat) |};
         {| call_pc := 1; call_in := Some (at_vertex 0%nat);
            call_out := Emit (at_vertex 0%nat) |};
         {| call_pc := 2; call_in := Some (at_vertex 0%nat);
            call_out := Emit (at_vertex 1%nat) |};
         {| call_pc := 3; call_in := Some (at_vertex 1%nat);
            call_out := Emit (at_vertex 0%nat) |} ]).
Proof.
  split_and!.
  - unfold run. apply loop_more_fuel; [by vm_compute | done].
  - done.
  - by vm_compute.
  - done.
  - rewrite calls_more_fuel; by vm_compute.
Qed.

(** ** Edge endpoint integrity *)

Lemma occurrences_app r l1 l2 :
  occurrences r (l1 ++ l2) = (occurrences r l1 + occurrences r l2)%nat.
Proof. unfold occurrences. by rewrite filter_app, length_app. Qed.

Lemma occurrences_one r x :
  occurrences r [x] = (if decide (x = r) then 1 else 0)%nat.
Proof. unfold occurrences. rewrite filter_cons, filter_nil. by case_decide. Qed.

Lemma occurrences_pushed_other (r r' : nat) (P : Prop) `{Decision P} :
  r ≠ r' → occurrences r' (if decide P then [r] else []) = 0%nat.
Proof.
  intros Hne. case_decide; [|done]. rewrite occurrences_one. by rewrite decide_False.
Qed.

Lemma occurrences_pushed_self (r : nat) (P : Prop) `{Decision P} :
  occurrences r (if decide P then [r] else []) = (if decide P then 1 else 0)%nat.
Proof. case_decide; [|done]. rewrite occurrences_one. by rewrite decide_True. Qed.

(** A vertex object after [addEdge] has pushed the edge [r] from [ov] to [iv]. *)
Lemma lookup_linked (l : list vertex) (r ov iv w : nat) (vx' : vertex) :
  alter (push_in r) iv (alter (push_out r) ov l) !! w = Some vx' →
  ∃ vx, l !! w = Some vx ∧ v_id vx' = v_id vx
        ∧ v_out vx' = v_out vx ++ (if decide (w = ov) then [r] else [])
        ∧ v_in vx' = v_in vx ++ (if decide (w = iv) then [r] else []).
Proof.
  rewrite !list_lookup_alter.
  destruct (decide (iv = w)) as [->|Hi], (decide (ov = w)) as [->|Ho];
    destruct (l !! w) as [vx|]; simpl; intros [= <-]; exists vx;
    repeat case_decide; try congruence; simpl; by rewrite ?app_nil_r.
Qed.

Lemma linked_empty : linked empty_graph.
Proof. constructor; simpl; intros; done. Qed.

Lemma linked_integrity g : linked g → edge_integrity g.
Proof.
  intros Hl key r Hkey.
  pose proof (lk_eindex g Hl key r Hkey) as Hr.
  apply lookup_lt_is_Some_2 in Hr as [e He]. exists e. split; [done|].
  destruct (lk_edges g Hl r e He) as (Ho & Hi & Hocc).
  apply lookup_lt_is_Some_2 in Ho as [xo Hxo]. apply lookup_lt_is_Some_2 in Hi as [xi Hxi].
  split_and!.
  - exists (v_id xo). by apply (lk_indexed g Hl).
  - exists (v_id xi). by apply (lk_indexed g Hl).
  - done.
Qed.

Lemma linked_store_vertex g id vx next :
  linked g → Map_get id (vertexIndex g) = None →
  va_out vx = None → va_in vx = None →
  linked (store_vertex g id vx next).1.
Proof.
  intros Hl Hfresh Hout Hin. unfold store_vertex. rewrite Hout, Hin. simpl.
  set (obj := {| v_id := id; v_out := []; v_in := []; v_props := va_props vx |}).
  assert (Hcases : ∀ w x, (vheap g ++ [obj]) !! w = Some x →
            vheap g !! w = Some x ∨ (w = length (vheap g) ∧ x = obj)).
  { intros w x Hw. apply lookup_snoc_Some in Hw as [[? ?]|[? ?]]; [by left|].
    right. by subst. }
  constructor; simpl.
  - intros id' r Hget. destruct (decide (id = id')) as [<-|Hne].
    + rewrite Map_get_set_eq in Hget. injection Hget as <-.
      rewrite lookup_app_r by lia. by rewrite Nat.sub_diag.
    + rewrite Map_get_set_ne in Hget by done.
      pose proof (lk_index g Hl id' r Hget) as Hr.
      rewrite lookup_app_l; [done|].
      destruct (vheap g !! r) eqn:E; [|done]. by apply lookup_lt_Some in E.
  - intros w x Hw. apply Hcases in Hw as [Hw|[-> ->]].
    + pose proof (lk_indexed g Hl w x Hw) as Hx.
      rewrite Map_get_set_ne; [done|]. intros ->. congruence.
    + apply Map_get_set_eq.
  - intros r e He. destruct (lk_edges g Hl r e He) as (Ho & Hi & Hocc).
    rewrite length_app. simpl. split_and!; [lia|lia|].
    intros w x Hw. apply Hcases in Hw as [Hw|[-> ->]]; [by apply Hocc|].
    simpl. rewrite !decide_False by lia. done.
  - intros w x r Hw Hr. apply Hcases in Hw as [Hw|[-> ->]]; [|done].
    by apply (lk_fresh g Hl w x r).
  - apply (lk_eindex g Hl).
Qed.

Lemma linked_addEdge g e : linked g → linked (addEdge g e).1.
Proof.
  intros Hl. unfold addEdge, findVertexById.
  destruct (Map_get (ea_in e) (vertexIndex g)) as [iv|] eqn:Hiv; [|done].
  destruct (Map_get (ea_out e) (vertexIndex g)) as [ov|] eqn:Hov; [|done].
  simpl. set (r := length (eheap g)).
  assert (Hiv_lt : (iv < length (vheap g))%nat).
  { pose proof (lk_index g Hl _ _ Hiv) as H.
    destruct (vheap g !! iv) eqn:E; [|done]. by apply lookup_lt_Some in E. }
  assert (Hov_lt : (ov < length (vheap g))%nat).
  { pose proof (lk_index g Hl _ _ Hov) as H.
    destruct (vheap g !! ov) eqn:E; [|done]. by apply lookup_lt_Some in E. }
  constructor; simpl.
  - intros id w Hget. rewrite lookup_linked_id. by apply (lk_index g Hl).
  - intros w x' Hw. apply lookup_linked in Hw as (x & Hx & Hid & _).
    rewrite Hid. by apply (lk_indexed g Hl).
  - intros r' e' He'. rewrite !length_alter.
    apply lookup_snoc_Some in He' as [[Hlt He']|[-> <-]].
    + destruct (lk_edges g Hl r' e' He') as (Ho & Hi & Hocc).
      split_and!; [done|done|].
      intros w x' Hw. apply lookup_linked in Hw as (x & Hx & _ & -> & ->).
      rewrite !occurrences_app. destruct (Hocc w x Hx) as [-> ->].
      rewrite !occurrences_pushed_other by (unfold r; lia). lia.
    + simpl. split_and!; [done|done|].
      intros w x' Hw. apply lookup_linked in Hw as (x & Hx & _ & -> & ->).
      rewrite !occurrences_app.
      destruct (lk_fresh g Hl w x (length (eheap g)) Hx) as [-> ->]; [lia|].
      by rewrite !occurrences_pushed_self.
  - intros w x' r' Hw Hr'. rewrite length_app in Hr'. simpl in Hr'.
    apply lookup_linked in Hw as (x & Hx & _ & -> & ->).
    rewrite !occurrences_app.
    destruct (lk_fresh g Hl w x r' Hx) as [-> ->]; [lia|].
    by rewrite !occurrences_pushed_other by (unfold r; lia).
  - intros k r' Hget. rewrite length_app. simpl.
    destruct (decide (edge_key (id_of g ov) (id_of g iv) (ea_label e) = k)) as [<-|Hne].
    + rewrite Map_get_set_eq in Hget. injection Hget as <-. unfold r. lia.
    + rewrite Map_get_set_ne in Hget by done.
      pose proof (lk_eindex g Hl k r' Hget). lia.
Qed.

Lemma linked_insert g i : linked g → plain g i = true → linked (insert g i).
Proof.
  intros Hl Hp. destruct i as [vx|e]; simpl in *; [|by apply linked_addEdge].
  apply andb_true_iff in Hp as [Hp Hid]. apply andb_true_iff in Hp as [Ho Hi].
  apply bool_decide_eq_true in Ho, Hi.
  unfold addVertex. destruct (truthy (va_id vx)) eqn:Ht; simpl in *.
  - destruct (Map_has (va_id vx) (vertexIndex g)) eqn:Hhas; [done|].
    apply linked_store_vertex; [done| |done|done]. by apply Map_has_false.
  - apply linked_store_vertex; [done| |done|done].
    apply Map_has_false. by apply negb_true_iff.
Qed.

Lemma linked_insert_all l g :
  linked g → all_plain g l = true → linked (insert_all g l).
Proof.
  revert g. induction l as [|i l IH]; intros g Hl Hp; simpl in *; [done|].
  apply andb_true_iff in Hp as [Hi Hp]. apply IH; [|done]. by apply linked_insert.
Qed.

(** C4 as stated fails: a vertex that arrives with an [_out] array naming the
    stored edge puts that edge into a second out-adjacency array. *)
Lemma supplied_adjacency_breaks_integrity :
  ¬ edge_integrity
      (insert_all empty_graph
         [InsVertex (named 1 "a"); InsVertex (named 2 "b"); InsEdge knows_1_2;
          InsVertex {| va_id := PNum 3; va_out := Some [0%nat]; va_in := None;
                       va_props := ∅ |}]).
Proof.
  intros Hint.
  destruct (Hint "1->2:knows" 0%nat eq_refl) as (e & He & _ & _ & Hocc).
  vm_compute in He. injection He as <-.
  destruct (Hocc 2%nat {| v_id := PNum 3; v_out := [0%nat]; v_in := [];
                          v_props := ∅ |} eq_refl) as [Ho _].
  vm_compute in Ho. discriminate.
Qed.

(** C4, amended.  After every sequence of insertions in which each vertex
    arrives without adjacency arrays and no id taken from the counter is
    already indexed, every indexed edge has both endpoints among the indexed
    vertices and occurs once in the out-array of its source, once in the
    in-array of its target, and in no other adjacency array. *)
Theorem plain_insertions_keep_integrity (l : list insertion) :
  all_plain empty_graph l = true → edge_integrity (insert_all empty_graph l).
Proof.
  intros Hp. apply linked_integrity, linked_insert_all; [apply linked_empty | done].
Qed.

(** The store of the scenarios, built by its three insertions. *)
Lemma plain_insertions_keep_integrity_witness :
  edge_integrity
    (insert_all empty_graph
       [InsVertex (named 1 "a"); InsVertex (named 2 "b"); InsEdge knows_1_2]).
Proof. apply plain_insertions_keep_integrity. reflexivity. Defined.

(** The slip of C6 breaks the same property by itself: the edge keeps the
    replaced vertex object, which no id leads to any more. *)
Remark autoid_collision_breaks_integrity :
  ¬ edge_integrity
      (insert_all empty_graph
         [InsVertex (named 1 "a");
          InsEdge {| ea_out := PNum 1; ea_in := PNum 1; ea_label := PStr "self";
                     ea_props := ∅ |};
          InsVertex {| va_id := PUndef; va_out := None; va_in := None;
                       va_props := ∅ |}]).
Proof.
  set (g := insert_all _ _). intros Hbad.
  assert (Hindex : vertexIndex g = [(PNum 1, 1%nat)]) by (by vm_compute).
  destruct (Hbad "1->1:self" 0%nat) as (e & He & Hsrc & _); [reflexivity|].
  vm_compute in He. injection He as <-.
  destruct Hsrc as [k Hk]. rewrite Hindex in Hk. simpl in Hk.
  destruct (decide (k = PNum 1)); discriminate Hk.
Qed.

(** ** The [unique] stage under the engine *)

Lemma settle_states max c s state h :
  states (settle max c s state h).1 = <[pc c := state]> (states c).
Proof.
  unfold settle, move_on.
  destruct s; simpl; repeat (case_match; simpl); done.
Qed.




Section unique_stage.
Context (registry : gmap string pipetype) (g : graph) (program : list step).
Context (pos : Z) (args : list arg).
Hypothesis Hreg : registry !! "unique" = Some pipe_unique.
Hypothesis Hpos : at_index program pos = Some ("unique", args).



End unique_stage.

(** The values the loop yields are the gremlins returned by the last stage. *)
Lemma loop_yields_last_emits registry g program fuel c :
  (loop registry g program fuel c).1
  = omap (λ x, match call_out x with
               | Emit gr =>
                   if (call_pc x + 1 >? Z.of_nat (length program) - 1)%Z
                   then Some (yielded gr) else None
               | _ => None
               end)
         (calls registry g program fuel c).
Proof.
  revert c. induction fuel as [|fuel IH]; intros c; simpl.
  - by destruct (done c <? _)%Z.
  - destruct (done c <? _)%Z; [|done].
    destruct (call_stage registry g program c) as [s state h| |]; [|done|done].
    specialize (IH (settle (Z.of_nat (length program) - 1) c s state h).1).
    destruct (settle _ c s state h) as [c' out] eqn:Hs. simpl in IH.
    destruct (loop registry g program fuel c') as [outs fin]. simpl in *.
    rewrite IH. f_equal.
    unfold settle, move_on in Hs.
    destruct s; simpl in *; repeat case_match; by simplify_eq.
Qed.




(** ** Snapshots: the round trip *)

Lemma json_safe_vertex g k r vx :
  json_safe g = true → (k, r) ∈ vertices g → vheap g !! r = Some vx →
  json_value (v_id vx) = v_id vx ∧ json_props (v_props vx) = v_props vx.
Proof.
  unfold json_safe. intros [Hv _]%andb_true_iff Hin Hr.
  rewrite forallb_forall in Hv.
  apply (list_elem_of_fmap_2 snd), list_elem_of_In, Hv in Hin. simpl in Hin.
  rewrite Hr in Hin. apply andb_true_iff in Hin as [Hid Hprops].
  split; [by apply bool_decide_eq_true in Hid|by apply bool_decide_eq_true in Hprops].
Qed.

Lemma json_safe_edge g k r e :
  json_safe g = true → (k, r) ∈ edges g → eheap g !! r = Some e →
  (json_value (id_of g (e_out e)) = id_of g (e_out e)
   ∧ json_value (id_of g (e_in e)) = id_of g (e_in e))
  ∧ json_value (e_label e) = e_label e ∧ json_props (e_props e) = e_props e.
Proof.
  unfold json_safe. intros [_ He]%andb_true_iff Hin Hr.
  rewrite forallb_forall in He.
  apply (list_elem_of_fmap_2 snd), list_elem_of_In, He in Hin. simpl in Hin.
  rewrite Hr in Hin. apply andb_true_iff in Hin as [Hin Hp].
  apply andb_true_iff in Hin as [Hin Hl]. apply andb_true_iff in Hin as [Ho Hi].
  apply bool_decide_eq_true in Ho, Hi, Hl, Hp. by split_and!.
Qed.

Lemma Map_get_is_Some_keys {K V : Type} `{EqDecision K} (k : K) (m : list (K * V)) :
  is_Some (Map_get k m) ↔ k ∈ Map_keys m.
Proof.
  destruct (Map_get k m) eqn:E.
  - split; [intros _|by eexists].
    apply Map_get_elem in E. by apply (list_elem_of_fmap_2 fst) in E.
  - apply Map_get_None in E. split; [by intros [? ?]|done].
Qed.

Lemma vertex_rows_keys g : (vertex_rows g).*1 = Map_keys (vertices g).
Proof.
  unfold vertex_rows, Map_keys. rewrite <- list_fmap_compose. done.
Qed.

Lemma edge_rows_keys g : (edge_rows g).*1 = Map_keys (edges g).
Proof.
  unfold edge_rows, Map_keys. rewrite <- list_fmap_compose. done.
Qed.

(** One vertex stored under a new id adds its row at the end. *)
Lemma store_vertex_rows g id vx next :
  wf_store g → Map_get id (vertices g) = None →
  vertex_rows (store_vertex g id vx next).1
  = vertex_rows g ++ [(id, Some (id, va_props vx))]
  ∧ edge_rows (store_vertex g id vx next).1 = edge_rows g.
Proof.
  intros Hwf Hfresh. unfold vertex_rows, edge_rows, store_vertex. simpl. split.
  - rewrite Map_set_fresh by done. rewrite fmap_app. simpl. f_equal.
    + apply Forall_fmap_ext_1, Forall_forall. intros [k r] Hin. simpl.
      destruct (wf_vobj g Hwf k r Hin) as (_ & x & Hx & _).
      rewrite lookup_app_l; [done|]. by apply lookup_lt_Some in Hx.
    + rewrite lookup_app_r by lia. by rewrite Nat.sub_diag.
  - apply Forall_fmap_ext_1, Forall_forall. intros [k r] Hin. simpl.
    destruct (wf_eobj g Hwf k r Hin) as (e & He & _). rewrite He. simpl.
    destruct (wf_ends g Hwf r e He) as (Ho & Hi & _).
    unfold id_of. simpl. by rewrite !lookup_app_l.
Qed.

Lemma addVertices_rows vs : ∀ g,
  reachable g →
  Forall (λ vx, truthy (va_id vx) = true) vs →
  NoDup (va_id <$> vs) →
  (∀ id, id ∈ va_id <$> vs → id ∉ Map_keys (vertices g)) →
  reachable (addVertices g vs)
  ∧ vertex_rows (addVertices g vs) = vertex_rows g ++ (vertex_row_of_arg <$> vs)
  ∧ edge_rows (addVertices g vs) = edge_rows g.
Proof.
  induction vs as [|vx vs IH]; intros g Hreach Hid Hnd Hfresh; simpl.
  { by rewrite app_nil_r. }
  apply Forall_cons in Hid as [Hvx Hid]. rewrite fmap_cons in Hnd.
  apply NoDup_cons in Hnd as [Hvx_new Hnd].
  pose proof (reachable_wf g Hreach) as Hwf.
  assert (Hnone : Map_get (va_id vx) (vertices g) = None).
  { apply Map_get_None, Hfresh. rewrite fmap_cons. left. }
  destruct (store_vertex_rows g (va_id vx) vx (autoid g) Hwf Hnone) as [Hv He].
  assert (Hstep : addVertex g vx = store_vertex g (va_id vx) vx (autoid g)).
  { unfold addVertex. rewrite Hvx. simpl. rewrite (wf_vindex g Hwf).
    by apply Map_has_false in Hnone as ->. }
  unfold addVertices in *. simpl. rewrite Hstep.
  destruct (IH (store_vertex g (va_id vx) vx (autoid g)).1) as (Hr & Hv' & He').
  - rewrite <- Hstep. by apply reachable_vertex.
  - done.
  - done.
  - intros id Hin. rewrite <- vertex_rows_keys, Hv, fmap_app. simpl.
    rewrite vertex_rows_keys. intros Hbad. apply elem_of_app in Hbad as [Hbad|Hbad].
    + revert Hbad. apply Hfresh. rewrite fmap_cons. by right.
    + apply list_elem_of_singleton in Hbad as ->. done.
  - split_and!; [done| |by rewrite He', He].
    rewrite Hv', Hv, <- app_assoc. done.
Qed.

(** One edge stored under a new key adds its row at the end. *)
Lemma addEdge_rows g e :
  wf_store g →
  is_Some (Map_get (ea_out e) (vertices g)) →
  is_Some (Map_get (ea_in e) (vertices g)) →
  edge_key (ea_out e) (ea_in e) (ea_label e) ∉ Map_keys (edges g) →
  vertex_rows (addEdge g e).1 = vertex_rows g
  ∧ edge_rows (addEdge g e).1 = edge_rows g ++ [edge_row_of_arg e].
Proof.
  intros Hwf [ov Hov] [iv Hiv] Hkey. unfold addEdge, findVertexById.
  rewrite (wf_vindex g Hwf), Hov, Hiv. simpl.
  destruct (wf_vobj g Hwf _ _ (Map_get_elem _ _ _ Hov)) as (_ & xo & Hxo & Hxo_id).
  destruct (wf_vobj g Hwf _ _ (Map_get_elem _ _ _ Hiv)) as (_ & xi & Hxi & Hxi_id).
  assert (Hio : id_of g ov = ea_out e) by (unfold id_of; by rewrite Hxo).
  assert (Hii : id_of g iv = ea_in e) by (unfold id_of; by rewrite Hxi).
  rewrite Hio, Hii. unfold vertex_rows, edge_rows. simpl. split.
  - apply Forall_fmap_ext_1, Forall_forall. intros [k r] Hin. simpl. f_equal.
    by rewrite !lookup_alter_proj.
  - rewrite Map_set_fresh by (by apply Map_get_None).
    rewrite fmap_app. simpl. f_equal.
    + apply Forall_fmap_ext_1, Forall_forall. intros [k r] Hin. simpl. f_equal.
      destruct (wf_eobj g Hwf k r Hin) as (e' & He' & _).
      rewrite lookup_app_l by (by apply lookup_lt_Some in He'). rewrite He'. simpl.
      unfold id_of. simpl. by rewrite !lookup_linked_id.
    + rewrite lookup_app_r by lia. rewrite Nat.sub_diag. simpl.
      unfold id_of, edge_row_of_arg. simpl. rewrite !lookup_linked_id.
      fold (id_of g ov) (id_of g iv). by rewrite Hio, Hii.
Qed.

Lemma addEdges_rows es : ∀ g,
  reachable g →
  Forall (λ e, is_Some (Map_get (ea_out e) (vertices g))
               ∧ is_Some (Map_get (ea_in e) (vertices g))) es →
  NoDup ((edge_row_of_arg <$> es).*1) →
  (∀ k, k ∈ (edge_row_of_arg <$> es).*1 → k ∉ Map_keys (edges g)) →
  vertex_rows (addEdges g es) = vertex_rows g
  ∧ edge_rows (addEdges g es) = edge_rows g ++ (edge_row_of_arg <$> es).
Proof.
  induction es as [|e es IH]; intros g Hreach Hends Hnd Hfresh; simpl.
  { by rewrite app_nil_r. }
  apply Forall_cons in Hends as [[Ho Hi] Hends]. rewrite !fmap_cons in Hnd.
  apply NoDup_cons in Hnd as [He_new Hnd].
  pose proof (reachable_wf g Hreach) as Hwf.
  destruct (addEdge_rows g e Hwf Ho Hi) as [Hv He].
  { apply Hfresh. rewrite !fmap_cons. left. }
  assert (Hkeys : Map_keys (vertices (addEdge g e).1) = Map_keys (vertices g)).
  { by rewrite <- !vertex_rows_keys, Hv. }
  unfold addEdges in *. simpl.
  destruct (IH (addEdge g e).1) as (Hv' & He').
  - by apply reachable_edge.
  - eapply Forall_impl; [exact Hends|]. simpl. intros e0.
    rewrite !Map_get_is_Some_keys, Hkeys. done.
  - done.
  - intros k Hin. rewrite <- edge_rows_keys, He, fmap_app. simpl.
    rewrite edge_rows_keys. intros Hbad. apply elem_of_app in Hbad as [Hbad|Hbad].
    + revert Hbad. apply Hfresh. rewrite !fmap_cons. by right.
    + apply list_elem_of_singleton in Hbad as ->. done.
  - split; [by rewrite Hv', Hv|]. rewrite He', He, <- app_assoc. done.
Qed.

(** The rows that the snapshot of a JSON-safe store will make are the rows of
    the store it was taken from. *)
Lemma jsonify_vertex_rows g :
  wf_store g → json_safe g = true →
  vertex_row_of_arg <$> V (jsonify g) = vertex_rows g.
Proof.
  intros Hwf Hsafe. unfold jsonify, vertex_rows, Map_values. simpl.
  assert (Hobj : ∀ k r, (k, r) ∈ vertices g →
    ∃ x, vheap g !! r = Some x ∧ v_id x = k
         ∧ json_value (v_id x) = v_id x ∧ json_props (v_props x) = v_props x).
  { intros k r Hin. destruct (wf_vobj g Hwf k r Hin) as (_ & x & Hx & Hid).
    destruct (json_safe_vertex g k r x Hsafe Hin Hx) as [Hkid Hkprops].
    by exists x. }
  revert Hobj.
  generalize (vertices g) as m. induction m as [|[k r] m IH]; intros Hobj; [done|].
  destruct (Hobj k r) as (x & Hx & Hid & Hkid & Hkprops); [left|].
  rewrite !fmap_cons. simpl. rewrite Hx. simpl. f_equal.
  - unfold vertex_row_of_arg. simpl. by rewrite Hkid, Hkprops, Hid.
  - apply IH. intros k' r' Hin. apply Hobj. by right.
Qed.

Lemma jsonify_edge_rows g :
  wf_store g → json_safe g = true →
  edge_row_of_arg <$> E (jsonify g) = edge_rows g.
Proof.
  intros Hwf Hsafe. unfold jsonify, edge_rows, Map_values. simpl.
  assert (Hobj : ∀ k r, (k, r) ∈ edges g →
    ∃ e, eheap g !! r = Some e
         ∧ k = edge_key (id_of g (e_out e)) (id_of g (e_in e)) (e_label e)
         ∧ json_value (id_of g (e_out e)) = id_of g (e_out e)
         ∧ json_value (id_of g (e_in e)) = id_of g (e_in e)
         ∧ json_value (e_label e) = e_label e
         ∧ json_props (e_props e) = e_props e).
  { intros k r Hin. destruct (wf_eobj g Hwf k r Hin) as (e & He & Hk).
    destruct (json_safe_edge g k r e Hsafe Hin He) as ([Ho Hi] & Hl & Hp).
    by exists e. }
  revert Hobj.
  generalize (edges g) as m. induction m as [|[k r] m IH]; intros Hobj; [done|].
  destruct (Hobj k r) as (e & He & Hk & Hko & Hki & Hkl & Hkp); [left|].
  rewrite !fmap_cons. simpl. rewrite He. simpl. f_equal.
  - unfold edge_row_of_arg. simpl. by rewrite Hko, Hki, Hkl, Hkp, Hk.
  - apply IH. intros k' r' Hin. apply Hobj. by right.
Qed.

(** The vertices of a snapshot carry the ids under which the store holds
    them, and no adjacency arrays. *)
Lemma jsonify_vertices_plain g :
  wf_store g → json_safe g = true →
  va_id <$> V (jsonify g) = Map_keys (vertices g)
  ∧ Forall (λ vx, va_out vx = None ∧ va_in vx = None ∧ truthy (va_id vx) = true)
           (V (jsonify g)).
Proof.
  intros Hwf Hsafe.
  assert (HVid : va_id <$> V (jsonify g) = Map_keys (vertices g)).
  { rewrite <- vertex_rows_keys, <- (jsonify_vertex_rows g Hwf Hsafe),
      <- list_fmap_compose. done. }
  split; [done|]. apply Forall_forall. intros vx Hin. split_and!.
  - unfold jsonify in Hin. simpl in Hin.
    apply list_elem_of_omap in Hin as (r & _ & Hr).
    destruct (vheap g !! r); [|done]. by injection Hr as <-.
  - unfold jsonify in Hin. simpl in Hin.
    apply list_elem_of_omap in Hin as (r & _ & Hr).
    destruct (vheap g !! r); [|done]. by injection Hr as <-.
  - apply (list_elem_of_fmap_2 va_id) in Hin. rewrite HVid in Hin.
    apply list_elem_of_fmap in Hin as [[k r] [-> Hin]].
    by destruct (wf_vobj g Hwf k r Hin).
Qed.

(** Both endpoint ids of an edge of a snapshot are ids of its vertices. *)
Lemma jsonify_edges_closed g :
  wf_store g → json_safe g = true →
  Forall (λ e, ea_out e ∈ Map_keys (vertices g) ∧ ea_in e ∈ Map_keys (vertices g))
         (E (jsonify g)).
Proof.
  intros Hwf Hsafe. apply Forall_forall. intros e Hin.
  unfold jsonify in Hin. simpl in Hin.
  apply list_elem_of_omap in Hin as (r & Hmem & Hr).
  apply list_elem_of_fmap in Hmem as [[k r'] [-> Hmem]]. simpl in Hr.
  destruct (eheap g !! r') as [e0|] eqn:He0; [|done]. injection Hr as <-. simpl.
  destruct (wf_ends g Hwf r' e0 He0) as (_ & _ & Ho & Hi).
  destruct (json_safe_edge g k r' e0 Hsafe Hmem He0) as ([-> ->] & _).
  by rewrite <- !Map_get_is_Some_keys.
Qed.

(** The rows of the store rebuilt from the snapshot of a JSON-safe store. *)
Lemma round_trip_rows g :
  reachable g → json_safe g = true →
  vertex_rows (fromString (jsonify g)) = vertex_rows g
  ∧ edge_rows (fromString (jsonify g)) = edge_rows g.
Proof.
  intros Hreach Hsafe. pose proof (reachable_wf g Hreach) as Hwf.
  pose proof (jsonify_vertex_rows g Hwf Hsafe) as HV.
  pose proof (jsonify_edge_rows g Hwf Hsafe) as HE.
  destruct (jsonify_vertices_plain g Hwf Hsafe) as [HVid Hplain].
  unfold fromString, Dagoba_graph.
  destruct (addVertices_rows (V (jsonify g)) empty_graph) as (Hr1 & Hv1 & He1).
  { apply reachable_empty. }
  { eapply Forall_impl; [exact Hplain|]. by intros vx (_ & _ & ?). }
  { rewrite HVid. apply (wf_vkeys g Hwf). }
  { intros id _. apply not_elem_of_nil. }
  rewrite HV in Hv1.
  change (vertex_rows empty_graph ++ vertex_rows g) with (vertex_rows g) in Hv1.
  assert (Hkeys1 : Map_keys (vertices (addVertices empty_graph (V (jsonify g))))
                   = Map_keys (vertices g)).
  { by rewrite <- !vertex_rows_keys, Hv1. }
  destruct (addEdges_rows (E (jsonify g))
              (addVertices empty_graph (V (jsonify g)))) as (Hv2 & He2).
  { done. }
  { eapply Forall_impl; [apply (jsonify_edges_closed g Hwf Hsafe)|].
    intros e [Ho Hi]. split; apply Map_get_is_Some_keys; by rewrite Hkeys1. }
  { rewrite HE, edge_rows_keys. apply (wf_ekeys g Hwf). }
  { intros k _. rewrite <- edge_rows_keys, He1. apply not_elem_of_nil. }
  split.
  - by rewrite Hv2, Hv1.
  - by rewrite He2, He1, HE.
Qed.

(** [Dagoba.graph] inserts the vertices one by one and then the edges. *)
Lemma Dagoba_graph_insert_all (vs : list vertex_arg) (es : list edge_arg) :
  Dagoba_graph (Some vs) (Some es)
  = insert_all empty_graph ((InsVertex <$> vs) ++ (InsEdge <$> es)).
Proof.
  unfold Dagoba_graph, insert_all, addVertices, addEdges.
  rewrite foldl_app. generalize empty_graph as g.
  induction vs as [|vx vs IH]; intros g; simpl.
  - revert g. induction es as [|e es IHe]; intros g; simpl; [done|]. apply IHe.
  - apply IH.
Qed.

(** Vertices that bring an id and no arrays, followed by edges, are plain
    insertions. *)
Lemma all_plain_vertices_edges vs es : ∀ g,
  Forall (λ vx, va_out vx = None ∧ va_in vx = None ∧ truthy (va_id vx) = true) vs →
  all_plain g ((InsVertex <$> vs) ++ (InsEdge <$> es)) = true.
Proof.
  induction vs as [|vx vs IH]; intros g Hvs.
  - simpl. revert g. induction es as [|e es IHe]; intros g; [done|]. simpl. apply IHe.
  - apply Forall_cons in Hvs as [(Ho & Hi & Hid) Hvs].
    rewrite fmap_cons. simpl. rewrite Ho, Hi, Hid. simpl. by apply IH.
Qed.

(** C10 as stated fails: a vertex stored under the id [Infinity] is written
    with the id [null] and rebuilt under an id taken from the counter. *)
Lemma snapshot_loses_infinite_id :
  reachable infinite_store
  ∧ Map_keys (vertices infinite_store) = [PInf false]
  ∧ va_id <$> V (jsonify infinite_store) = [PNull]
  ∧ Map_keys (vertices (fromString (jsonify infinite_store))) = [PNum 1]
  ∧ vertex_rows (fromString (jsonify infinite_store)) ≠ vertex_rows infinite_store.
Proof.
  split_and!.
  - apply (reachable_vertex empty_graph), reachable_empty.
  - reflexivity.
  - reflexivity.
  - reflexivity.
  - intros Heq. apply (f_equal (fmap fst)) in Heq.
    rewrite !vertex_rows_keys in Heq. discriminate Heq.
Qed.

(** Nor does a snapshot keep a key whose value is [undefined].  Under a name
    that every object inherits the loss shows in what the vertex reads:
    [undefined] in the store, the inherited function in the store rebuilt. *)
Remark snapshot_drops_undefined :
  let g := Dagoba_graph (Some [{| va_id := PNum 1; va_out := None; va_in := None;
                                  va_props := {[ "toString" := PUndef ]} |}]) None in
  reachable g
  ∧ json_safe g = false
  ∧ (λ vx, vertex_get vx "toString") <$> vheap g !! 0%nat = Some (VPrim PUndef)
  ∧ (λ vx, vertex_get vx "toString") <$> vheap (fromString (jsonify g)) !! 0%nat
    = Some (VInherited "toString")
  ∧ vertex_rows (fromString (jsonify g)) ≠ vertex_rows g.
Proof.
  intros g. split_and!.
  - apply (reachable_vertex empty_graph), reachable_empty.
  - by vm_compute.
  - by vm_compute.
  - by vm_compute.
  - intros Heq.
    apply (f_equal (λ rows, (λ row, (λ p, p.2 !! "toString") <$> row.2)
                              <$> rows !! 0%nat)) in Heq.
    vm_compute in Heq. discriminate Heq.
Qed.

(** C10, amended.  For every reachable store whose ids, labels and property
    values are [null], booleans, finite numbers or strings, the vertices of
    the snapshot carry no adjacency arrays, and the store rebuilt from the
    snapshot has the same vertices in the same order (same ids, same
    properties) and the same edges under the same keys (same endpoint ids,
    label and properties); its adjacency arrays are rebuilt by the insertion
    of the edges, each edge once in the out-array of its source and once in
    the in-array of its target. *)
Theorem snapshot_round_trip g :
  reachable g → json_safe g = true →
  vertex_rows (fromString (jsonify g)) = vertex_rows g
  ∧ edge_rows (fromString (jsonify g)) = edge_rows g
  ∧ Forall (λ vx, va_out vx = None ∧ va_in vx = None) (V (jsonify g))
  ∧ edge_integrity (fromString (jsonify g)).
Proof.
  intros Hreach Hsafe. pose proof (reachable_wf g Hreach) as Hwf.
  destruct (round_trip_rows g Hreach Hsafe) as [Hv He].
  destruct (jsonify_vertices_plain g Hwf Hsafe) as [_ Hplain].
  split_and!; [done|done|..].
  - eapply Forall_impl; [exact Hplain|]. by intros vx (? & ? & _).
  - unfold fromString. rewrite Dagoba_graph_insert_all.
    apply linked_integrity, linked_insert_all; [apply linked_empty|].
    by apply all_plain_vertices_edges.
Qed.

(** The store of the scenarios and its snapshot. *)
Lemma snapshot_round_trip_witness :
  vertex_rows (fromString (jsonify scenario_store)) = vertex_rows scenario_store
  ∧ edge_rows (fromString (jsonify scenario_store)) = edge_rows scenario_store
  ∧ (edge_rows scenario_store).*1 = ["1->2:knows"].
Proof.
  destruct (snapshot_round_trip scenario_store) as (Hv & He & _).
  - apply (reachable_edge _ knows_1_2), (reachable_vertex _ (named 2 "b")),
      (reachable_vertex _ (named 1 "a")), reachable_empty.
  - reflexivity.
  - split_and!; [exact Hv | exact He | reflexivity].
Defined.

(* ===================================================================== *)
(** * Further properties of the store *)
(* ===================================================================== *)

Lemma findVertexById_sound_aux g id r :
  reachable g → findVertexById g id = Some r →
  id ∈ Map_keys (vertices g) ∧ id_of g r = id.
Proof.
  intros Hwf%reachable_wf. unfold findVertexById. rewrite (wf_vindex g Hwf).
  intros Hget. split.
  - apply Map_get_is_Some_keys. by eexists.
  - apply Map_get_elem in Hget.
    destruct (wf_vobj g Hwf id r Hget) as (_ & vx & Hvx & Hid).
    unfold id_of. by rewrite Hvx.
Qed.

Lemma findVerticesByIds_loop (g : graph) (ids : list arg) :
  findVerticesByIds g ids
  = omap (λ id, match id with APrim p => findVertexById g p | _ => None end) ids.
Proof. by destruct ids as [|id [|id' ids]]. Qed.

(** X1.  In a reachable store [findVerticesByIds] answers a list of ids with
    one vertex for each id that is stored, in the order asked and with that
    id, and with nothing for the ids that are not stored; the shortcut for a
    single id makes no difference. *)
Theorem findVerticesByIds_ids g (ids : list prim) :
  reachable g →
  id_of g <$> findVerticesByIds g (APrim <$> ids)
  = filter (λ id, id ∈ Map_keys (vertices g)) ids.
Proof.
  intros Hreach. rewrite findVerticesByIds_loop.
  induction ids as [|id ids IH]; [done|].
  rewrite fmap_cons. simpl. rewrite filter_cons.
  destruct (findVertexById g id) as [r|] eqn:Hfind.
  - destruct (findVertexById_sound_aux g id r Hreach Hfind) as (Hin & Hid).
    rewrite decide_True by done. rewrite fmap_cons, Hid. by f_equal.
  - rewrite decide_False; [done|].
    intros Hin. apply Map_get_is_Some_keys in Hin as [r Hr].
    unfold findVertexById in Hfind.
    rewrite (wf_vindex g (reachable_wf g Hreach)) in Hfind. congruence.
Qed.

Lemma findVerticesByIds_ids_witness :
  id_of scenario_store
    <$> findVerticesByIds scenario_store (APrim <$> [PNum 2; PNum 7; PNum 1])
  = [PNum 2; PNum 1].
Proof.
  rewrite (findVerticesByIds_ids scenario_store [PNum 2; PNum 7; PNum 1]).
  - by vm_compute.
  - apply (reachable_edge _ knows_1_2), (reachable_vertex _ (named 2 "b")),
      (reachable_vertex _ (named 1 "a")), reachable_empty.
Defined.

(** X2.  In a reachable store [findVertexById] finds exactly the entries of
    the vertex map, and the vertex found carries the id it was asked for,
    which is truthy. *)
Theorem findVertexById_sound g id r :
  reachable g →
  (findVertexById g id = Some r ↔ (id, r) ∈ vertices g)
  ∧ (findVertexById g id = Some r → id_of g r = id ∧ truthy id = true).
Proof.
  intros Hwf%reachable_wf. unfold findVertexById. rewrite (wf_vindex g Hwf).
  split.
  - split; [apply Map_get_elem | apply Map_elem_get, (wf_vkeys g Hwf)].
  - intros Hget%Map_get_elem.
    destruct (wf_vobj g Hwf id r Hget) as (Ht & vx & Hvx & Hid).
    split; [|done]. unfold id_of. by rewrite Hvx.
Qed.

Lemma findVertexById_sound_witness :
  (findVertexById scenario_store (PNum 2) = Some 1%nat
   ↔ (PNum 2, 1%nat) ∈ vertices scenario_store)
  ∧ (findVertexById scenario_store (PNum 2) = Some 1%nat
     → id_of scenario_store 1 = PNum 2 ∧ truthy (PNum 2) = true).
Proof.
  apply (findVertexById_sound scenario_store (PNum 2) 1%nat).
  apply (reachable_edge _ knows_1_2), (reachable_vertex _ (named 2 "b")),
    (reachable_vertex _ (named 1 "a")), reachable_empty.
Defined.

(** X3.  [addVertex] touches nothing but the new vertex: the edges, their
    index and the edge objects are as before, every vertex object already
    stored is as before, and every id other than the one returned finds what
    it found before. *)
Theorem addVertex_frame (g : graph) (vx : vertex_arg) :
  edges (addVertex g vx).1 = edges g
  ∧ edgeIndex (addVertex g vx).1 = edgeIndex g
  ∧ eheap (addVertex g vx).1 = eheap g
  ∧ (∀ r, (r < length (vheap g))%nat → vheap (addVertex g vx).1 !! r = vheap g !! r)
  ∧ (∀ id, (addVertex g vx).2 = Returned id
           ∨ findVertexById (addVertex g vx).1 id = findVertexById g id).
Proof.
  assert (Hstore : ∀ id next,
    edges (store_vertex g id vx next).1 = edges g
    ∧ edgeIndex (store_vertex g id vx next).1 = edgeIndex g
    ∧ eheap (store_vertex g id vx next).1 = eheap g
    ∧ (∀ r, (r < length (vheap g))%nat →
            vheap (store_vertex g id vx next).1 !! r = vheap g !! r)
    ∧ (∀ id', (store_vertex g id vx next).2 = Returned id'
              ∨ findVertexById (store_vertex g id vx next).1 id'
                = findVertexById g id')).
  { intros id next. unfold store_vertex, findVertexById. simpl.
    split_and!; try done.
    - intros r Hr. by apply lookup_app_l.
    - intros id'. destruct (decide (id = id')) as [->|Hne]; [by left|right].
      by apply Map_get_set_ne. }
  unfold addVertex. destruct (truthy (va_id vx)); simpl; [|apply Hstore].
  destruct (Map_has (va_id vx) (vertexIndex g)); [|apply Hstore].
  simpl. split_and!; try done. intros id. by right.
Qed.

Lemma addVertex_frame_witness :
  findVertexById (addVertex scenario_store (named 3 "c")).1 (PNum 1)
  = findVertexById scenario_store (PNum 1)
  ∧ vheap (addVertex scenario_store (named 3 "c")).1 !! 0%nat
    = vheap scenario_store !! 0%nat.
Proof.
  destruct (addVertex_frame scenario_store (named 3 "c")) as (_ & _ & _ & Hobj & Hfind).
  split.
  - destruct (Hfind (PNum 1)) as [Hret|Hsame]; [|exact Hsame].
    vm_compute in Hret. discriminate Hret.
  - apply Hobj. vm_compute. lia.
Defined.

(** The arrays of a vertex after [addEdge] has pushed edge [r]. *)
Lemma lookup_linked_arrays (l : list vertex) (r ov iv w : nat) :
  alter (push_in r) iv (alter (push_out r) ov l) !! w
  = (λ vx, {| v_id := v_id vx;
              v_out := v_out vx ++ (if decide (w = ov) then [r] else []);
              v_in := v_in vx ++ (if decide (w = iv) then [r] else []);
              v_props := v_props vx |}) <$> l !! w.
Proof.
  rewrite !list_lookup_alter.
  destruct (decide (iv = w)) as [->|Hi], (decide (ov = w)) as [->|Ho];
    destruct (l !! w) as [[i o n p]|]; simpl; try done;
    repeat case_decide; try congruence; unfold push_in, push_out; simpl;
    by rewrite ?app_nil_r.
Qed.

(** Insertions that bring no arrays keep the store closed. *)
Lemma empty_graph_closed : store_closed empty_graph.
Proof.
  constructor; simpl; try done.
  intros ?? Hin. by apply elem_of_nil in Hin.
Qed.

Lemma addVertex_closed g vx :
  store_closed g → no_arrays (InsVertex vx) = true → store_closed (addVertex g vx).1.
Proof.
  intros Hcl Hno. simpl in Hno. apply andb_true_iff in Hno as [Ho Hi].
  apply bool_decide_eq_true in Ho. apply bool_decide_eq_true in Hi.
  assert (Hstore : ∀ id next, store_closed (store_vertex g id vx next).1).
  { intros id next. unfold store_vertex. rewrite Ho, Hi. constructor; simpl.
    - intros id' r Hin. rewrite length_app. simpl.
      apply Map_set_elem in Hin as [[= _ ->]|Hin]; [lia|].
      pose proof (cl_vertices g Hcl _ _ Hin). lia.
    - intros id' r Hget. rewrite length_app. simpl.
      destruct (decide (id = id')) as [<-|Hne].
      + rewrite Map_get_set_eq in Hget. injection Hget as <-. lia.
      + rewrite Map_get_set_ne in Hget by done.
        pose proof (cl_index g Hcl _ _ Hget). lia.
    - intros w x Hw. apply lookup_snoc_Some in Hw as [[_ Hw]|[_ <-]].
      + by apply (cl_arrays g Hcl w).
      + by simpl.
    - intros r e He. rewrite length_app. simpl.
      pose proof (cl_ends g Hcl r e He). lia. }
  unfold addVertex. destruct (truthy (va_id vx)); simpl; [|apply Hstore].
  destruct (Map_has (va_id vx) (vertexIndex g)); [done|apply Hstore].
Qed.

Lemma addEdge_closed g e : store_closed g → store_closed (addEdge g e).1.
Proof.
  intros Hcl. unfold addEdge.
  destruct (findVertexById g (ea_in e)) as [iv|] eqn:Hiv; [|done].
  destruct (findVertexById g (ea_out e)) as [ov|] eqn:Hov; [|done].
  pose proof (cl_index g Hcl _ _ Hiv) as Hi.
  pose proof (cl_index g Hcl _ _ Hov) as Ho.
  constructor; simpl.
  - intros id r Hin. rewrite !length_alter. by eapply (cl_vertices g Hcl).
  - intros id r Hget. rewrite !length_alter. by eapply (cl_index g Hcl).
  - intros w x Hw. rewrite lookup_linked_arrays in Hw.
    destruct (vheap g !! w) as [x0|] eqn:Hx0; [|done]. injection Hw as <-. simpl.
    destruct (cl_arrays g Hcl w x0 Hx0) as [Hout Hin].
    rewrite length_app. simpl. split; apply Forall_app; split.
    + eapply Forall_impl; [exact Hout|]. simpl. lia.
    + case_decide; [|done]. apply Forall_singleton. lia.
    + eapply Forall_impl; [exact Hin|]. simpl. lia.
    + case_decide; [|done]. apply Forall_singleton. lia.
  - intros r e' He'. rewrite !length_alter.
    apply lookup_snoc_Some in He' as [[_ He']|[_ <-]]; [|done].
    by apply (cl_ends g Hcl r).
Qed.

Lemma insert_all_closed l : ∀ g,
  store_closed g → forallb no_arrays l = true → store_closed (insert_all g l).
Proof.
  induction l as [|i l IH]; intros g Hcl Hno; [done|].
  simpl in Hno. apply andb_true_iff in Hno as [Hi Hno].
  change (insert_all g (i :: l)) with (insert_all (insert g i) l).
  apply IH; [|done]. destruct i as [vx|e]; simpl.
  - by apply addVertex_closed.
  - by apply addEdge_closed.
Qed.

Lemma insert_all_reachable l : ∀ g, reachable g → reachable (insert_all g l).
Proof.
  induction l as [|i l IH]; intros g Hg; [done|].
  change (insert_all g (i :: l)) with (insert_all (insert g i) l).
  apply IH. destruct i; simpl; by constructor.
Qed.

(** What [addEdge] writes when both ids find a vertex. *)
Lemma addEdge_success g e ov iv :
  findVertexById g (ea_out e) = Some ov →
  findVertexById g (ea_in e) = Some iv →
  let g' := (addEdge g e).1 in
  let r := length (eheap g) in
  let key := edge_key (id_of g ov) (id_of g iv) (ea_label e) in
  (addEdge g e).2 = Returned ()
  ∧ eheap g' = eheap g ++ [{| e_out := ov; e_in := iv; e_label := ea_label e;
                              e_props := ea_props e |}]
  ∧ edges g' = Map_set key r (edges g)
  ∧ edgeIndex g' = Map_set key r (edgeIndex g)
  ∧ (∀ w, findOutEdges g' w
          = (λ l, l ++ (if decide (w = ov) then [r] else [])) <$> findOutEdges g w)
  ∧ (∀ w, findInEdges g' w
          = (λ l, l ++ (if decide (w = iv) then [r] else [])) <$> findInEdges g w)
  ∧ vertices g' = vertices g ∧ vertexIndex g' = vertexIndex g
  ∧ autoid g' = autoid g ∧ (∀ w, id_of g' w = id_of g w).
Proof.
  intros Ho Hi g' r key. subst g' r key. unfold addEdge. rewrite Ho, Hi. simpl.
  split_and!; try done.
  - intros w. unfold findOutEdges. simpl. rewrite lookup_linked_arrays.
    by destruct (vheap g !! w).
  - intros w. unfold findInEdges. simpl. rewrite lookup_linked_arrays.
    by destruct (vheap g !! w).
  - intros w. apply id_of_eq. simpl. apply lookup_linked_id.
Qed.

(** In a reachable store the vertex found under an id carries that id. *)
Lemma findVertexById_id g id r :
  reachable g → findVertexById g id = Some r → id_of g r = id.
Proof.
  intros Hwf%reachable_wf. unfold findVertexById. rewrite (wf_vindex g Hwf).
  intros Hget%Map_get_elem.
  destruct (wf_vobj g Hwf id r Hget) as (_ & vx & Hvx & Hid).
  unfold id_of. by rewrite Hvx.
Qed.

(** X4.  In a store built by insertions of vertices that arrive without
    adjacency arrays, when both ids of an edge find a vertex, [addEdge]
    succeeds: the new edge object holds the two vertices and is put under the
    key built from the two ids and the label in the edge map and in the edge
    index; it was in no adjacency array and is pushed at the end of the
    out-array of its source and of the in-array of its target; no other array
    changes, and the vertex map, the vertex index, the ids and the counter
    are as before. *)
Theorem addEdge_links l e ov iv :
  forallb no_arrays l = true →
  let g := insert_all empty_graph l in
  findVertexById g (ea_out e) = Some ov →
  findVertexById g (ea_in e) = Some iv →
  let g' := (addEdge g e).1 in
  let r := length (eheap g) in
  let key := edge_key (ea_out e) (ea_in e) (ea_label e) in
  (addEdge g e).2 = Returned ()
  ∧ eheap g' !! r = Some {| e_out := ov; e_in := iv; e_label := ea_label e;
                            e_props := ea_props e |}
  ∧ Map_get key (edges g') = Some r
  ∧ Map_get key (edgeIndex g') = Some r
  ∧ (∀ w, (r ∉ default [] (findOutEdges g w)) ∧ (r ∉ default [] (findInEdges g w)))
  ∧ (∀ w, findOutEdges g' w
          = (λ l, l ++ (if decide (w = ov) then [r] else [])) <$> findOutEdges g w)
  ∧ (∀ w, findInEdges g' w
          = (λ l, l ++ (if decide (w = iv) then [r] else [])) <$> findInEdges g w)
  ∧ vertices g' = vertices g ∧ vertexIndex g' = vertexIndex g
  ∧ autoid g' = autoid g ∧ (∀ w, id_of g' w = id_of g w).
Proof.
  intros Hno g Ho Hi g' r key.
  assert (Hreach : reachable g) by apply insert_all_reachable, reachable_empty.
  assert (Hcl : store_closed g) by (by apply insert_all_closed; [apply empty_graph_closed|]).
  destruct (addEdge_success g e ov iv Ho Hi)
    as (Hret & Hheap & He & Hei & Hout & Hin & Hv & Hvi & Hauto & Hid).
  fold g' r in Hret, Hheap, He, Hei, Hout, Hin, Hv, Hvi, Hauto, Hid.
  rewrite (findVertexById_id g _ ov Hreach Ho), (findVertexById_id g _ iv Hreach Hi)
    in He, Hei.
  fold key in He, Hei.
  split_and!; try done.
  - rewrite Hheap, lookup_app_r by (unfold r; lia). unfold r. by rewrite Nat.sub_diag.
  - rewrite He. apply Map_get_set_eq.
  - rewrite Hei. apply Map_get_set_eq.
  - intros w. unfold findOutEdges, findInEdges.
    destruct (vheap g !! w) as [vx|] eqn:Hvx; simpl;
      [|split; apply not_elem_of_nil].
    destruct (cl_arrays g Hcl w vx Hvx) as [Hlo Hli].
    rewrite Forall_forall in Hlo. rewrite Forall_forall in Hli.
    split; intros Hr; [apply Hlo in Hr|apply Hli in Hr]; unfold r in Hr; lia.
Qed.

Lemma addEdge_links_witness :
  let g := insert_all empty_graph [InsVertex (named 1 "a"); InsVertex (named 2 "b")] in
  (addEdge g knows_1_2).2 = Returned ()
  ∧ Map_get "1->2:knows" (edges (addEdge g knows_1_2).1) = Some 0%nat
  ∧ findOutEdges (addEdge g knows_1_2).1 0 = Some [0%nat]
  ∧ findInEdges (addEdge g knows_1_2).1 1 = Some [0%nat]
  ∧ findOutEdges (addEdge g knows_1_2).1 1 = Some [].
Proof.
  intros g.
  destruct (addEdge_links [InsVertex (named 1 "a"); InsVertex (named 2 "b")]
              knows_1_2 0%nat 1%nat eq_refl eq_refl eq_refl)
    as (Hret & _ & Hkey & _ & _ & Hout & Hin & _).
  split_and!; [exact Hret | exact Hkey | by rewrite Hout | by rewrite Hin
              | by rewrite Hout].
Defined.

(** X5.  In a store built by insertions of vertices that arrive without
    adjacency arrays, a second edge with the same endpoints and label takes
    the place of the first under their key, in the edge map and in the edge
    index alike; neither gains a key; both edge objects stay, one after the
    other, at the end of the out-array of the source and of the in-array of
    the target. *)
Theorem addEdge_same_key_replaces l e e' ov iv :
  forallb no_arrays l = true →
  let g := insert_all empty_graph l in
  findVertexById g (ea_out e) = Some ov →
  findVertexById g (ea_in e) = Some iv →
  ea_out e' = ea_out e → ea_in e' = ea_in e → ea_label e' = ea_label e →
  let g1 := (addEdge g e).1 in
  let g2 := (addEdge g1 e').1 in
  let key := edge_key (ea_out e) (ea_in e) (ea_label e) in
  let r := length (eheap g) in
  (Map_get key (edges g1) = Some r ∧ Map_get key (edgeIndex g1) = Some r)
  ∧ (Map_get key (edges g2) = Some (S r) ∧ Map_get key (edgeIndex g2) = Some (S r))
  ∧ (Map_keys (edges g2) = Map_keys (edges g1)
     ∧ Map_keys (edgeIndex g2) = Map_keys (edgeIndex g1))
  ∧ (eheap g2 !! r = Some {| e_out := ov; e_in := iv; e_label := ea_label e;
                             e_props := ea_props e |}
     ∧ eheap g2 !! S r = Some {| e_out := ov; e_in := iv; e_label := ea_label e;
                                 e_props := ea_props e' |})
  ∧ findOutEdges g2 ov = (λ l, l ++ [r; S r]) <$> findOutEdges g ov
  ∧ findInEdges g2 iv = (λ l, l ++ [r; S r]) <$> findInEdges g iv.
Proof.
  intros Hno g Ho Hi Eo Ei El g1 g2 key r.
  assert (Hreach : reachable g) by apply insert_all_reachable, reachable_empty.
  destruct (addEdge_success g e ov iv Ho Hi)
    as (_ & Hheap1 & He1 & Hei1 & Hout1 & Hin1 & _ & Hvi & _ & Hid1).
  fold g1 in Hheap1, He1, Hei1, Hout1, Hin1, Hvi, Hid1.
  rewrite (findVertexById_id g _ ov Hreach Ho), (findVertexById_id g _ iv Hreach Hi)
    in He1, Hei1.
  fold key r in He1, Hei1, Hheap1, Hout1, Hin1.
  assert (Ho1 : findVertexById g1 (ea_out e') = Some ov).
  { unfold findVertexById. by rewrite Hvi, Eo. }
  assert (Hi1 : findVertexById g1 (ea_in e') = Some iv).
  { unfold findVertexById. by rewrite Hvi, Ei. }
  destruct (addEdge_success g1 e' ov iv Ho1 Hi1)
    as (_ & Hheap2 & He2 & Hei2 & Hout2 & Hin2 & _).
  fold g2 in Hheap2, He2, Hei2, Hout2, Hin2.
  assert (Hlen : length (eheap g1) = S r).
  { rewrite Hheap1, length_app. simpl. unfold r. lia. }
  rewrite Hlen, !Hid1, El in He2, Hei2.
  rewrite (findVertexById_id g _ ov Hreach Ho), (findVertexById_id g _ iv Hreach Hi)
    in He2, Hei2.
  fold key in He2, Hei2. rewrite Hlen in Hout2, Hin2.
  split_and!.
  - rewrite He1. apply Map_get_set_eq.
  - rewrite Hei1. apply Map_get_set_eq.
  - rewrite He2. apply Map_get_set_eq.
  - rewrite Hei2. apply Map_get_set_eq.
  - rewrite He2, Map_keys_set.
    assert (Map_has key (edges g1) = true) as ->; [|done].
    apply Map_has_true. rewrite He1, Map_get_set_eq. by eexists.
  - rewrite Hei2, Map_keys_set.
    assert (Map_has key (edgeIndex g1) = true) as ->; [|done].
    apply Map_has_true. rewrite Hei1, Map_get_set_eq. by eexists.
  - rewrite Hheap2, Hheap1, <- app_assoc. simpl.
    rewrite lookup_app_r by (unfold r; lia). unfold r. by rewrite Nat.sub_diag.
  - rewrite Hheap2, lookup_app_r by lia. by rewrite Hlen, Nat.sub_diag, El.
  - rewrite Hout2, Hout1. rewrite !decide_True by done.
    destruct (findOutEdges g ov); simpl; [|done]. by rewrite <- app_assoc.
  - rewrite Hin2, Hin1. rewrite !decide_True by done.
    destruct (findInEdges g iv); simpl; [|done]. by rewrite <- app_assoc.
Qed.

Lemma addEdge_same_key_replaces_witness :
  let g := insert_all empty_graph [InsVertex (named 1 "a"); InsVertex (named 2 "b")] in
  let g2 := (addEdge (addEdge g knows_1_2).1 knows_1_2).1 in
  Map_get "1->2:knows" (edges g2) = Some 1%nat
  ∧ Map_get "1->2:knows" (edgeIndex g2) = Some 1%nat
  ∧ Map_keys (edges g2) = ["1->2:knows"]
  ∧ findOutEdges g2 0 = Some [0%nat; 1%nat].
Proof.
  intros g g2.
  destruct (addEdge_same_key_replaces
              [InsVertex (named 1 "a"); InsVertex (named 2 "b")]
              knows_1_2 knows_1_2 0%nat 1%nat
              eq_refl eq_refl eq_refl eq_refl eq_refl eq_refl)
    as (_ & [Hk Hki] & _ & _ & Hout & _).
  split_and!; [exact Hk | exact Hki | reflexivity | exact (eq_trans Hout eq_refl)].
Defined.

Lemma autoid_insert g i : (autoid g ≤ autoid (insert g i))%Z.
Proof.
  destruct i as [vx|e]; simpl.
  - unfold addVertex, store_vertex.
    destruct (truthy (va_id vx)); simpl;
      [destruct (Map_has (va_id vx) (vertexIndex g)); simpl|]; lia.
  - unfold addEdge.
    destruct (findVertexById g (ea_in e)), (findVertexById g (ea_out e)); simpl; lia.
Qed.

Lemma autoid_insert_all l : ∀ g, (autoid g ≤ autoid (insert_all g l))%Z.
Proof.
  induction l as [|i l IH]; intros g; [simpl; lia|].
  change (insert_all g (i :: l)) with (insert_all (insert g i) l).
  pose proof (autoid_insert g i). specialize (IH (insert g i)). lia.
Qed.

(** X6.  Ids taken from the counter never repeat: a vertex inserted without
    an id receives the counter's value, and whatever is inserted afterwards,
    the next vertex without an id receives a greater number. *)
Theorem autoid_never_repeats g vx l vx' :
  truthy (va_id vx) = false → truthy (va_id vx') = false →
  (addVertex g vx).2 = Returned (PNum (autoid g))
  ∧ ∃ n, (addVertex (insert_all (addVertex g vx).1 l) vx').2 = Returned (PNum n)
         ∧ (autoid g < n)%Z.
Proof.
  intros Hid Hid'. split.
  - unfold addVertex. by rewrite Hid.
  - exists (autoid (insert_all (addVertex g vx).1 l)). split.
    + unfold addVertex at 1. by rewrite Hid'.
    + pose proof (autoid_insert_all l (addVertex g vx).1) as Hle.
      assert (autoid (addVertex g vx).1 = autoid g + 1)%Z as Heq.
      { unfold addVertex. by rewrite Hid. }
      lia.
Qed.

Lemma autoid_never_repeats_witness :
  let nameless := {| va_id := PUndef; va_out := None; va_in := None; va_props := ∅ |} in
  (addVertex empty_graph nameless).2 = Returned (PNum 1)
  ∧ ∃ n, (addVertex (insert_all (addVertex empty_graph nameless).1
                       [InsVertex (named 7 "x")]) nameless).2 = Returned (PNum n)
         ∧ (1 < n)%Z.
Proof.
  intros nameless.
  apply (autoid_never_repeats empty_graph nameless [InsVertex (named 7 "x")] nameless);
    reflexivity.
Defined.

Lemma filter_all {A : Type} (p : A → bool) (l : list A) :
  (∀ x, x ∈ l → p x = true) → List.filter p l = l.
Proof.
  induction l as [|x l IH]; intros Hall; simpl; [done|].
  rewrite Hall by left. f_equal. apply IH. intros y Hy. apply Hall. by right.
Qed.

Lemma searchVertices_no_keys g flt :
  reachable g → enumerate flt = [] → searchVertices g flt = Map_values (vertices g).
Proof.
  intros Hwf%reachable_wf Hkeys. unfold searchVertices. apply filter_all.
  intros r Hr. apply list_elem_of_fmap in Hr as [[id r'] [-> Hin]]. simpl.
  destruct (wf_vobj g Hwf id r' Hin) as (_ & vx & -> & _).
  unfold objectFilter. by rewrite Hkeys.
Qed.

(** X7.  In a reachable store [findVertices] selects every vertex, in the
    order of insertion, when it is given no argument, and also when its first
    argument is [null] or an object without keys. *)
Theorem findVertices_everything g (rest : list arg) :
  reachable g →
  findVertices g [] = Map_values (vertices g)
  ∧ findVertices g (APrim PNull :: rest) = Map_values (vertices g)
  ∧ findVertices g (AObj ∅ :: rest) = Map_values (vertices g).
Proof.
  intros Hreach. split_and!.
  - done.
  - unfold findVertices. simpl. by apply searchVertices_no_keys.
  - unfold findVertices. simpl. apply searchVertices_no_keys; [done|].
    simpl. apply map_to_list_empty.
Qed.

Lemma findVertices_everything_witness :
  findVertices scenario_store [] = [0%nat; 1%nat]
  ∧ findVertices scenario_store [APrim PNull] = [0%nat; 1%nat]
  ∧ findVertices scenario_store [AObj ∅] = [0%nat; 1%nat].
Proof.
  apply (findVertices_everything scenario_store []).
  apply (reachable_edge _ knows_1_2), (reachable_vertex _ (named 2 "b")),
    (reachable_vertex _ (named 1 "a")), reachable_empty.
Defined.

Lemma scenario_store_reachable : reachable scenario_store.
Proof.
  apply (reachable_edge _ knows_1_2), (reachable_vertex _ (named 2 "b")),
    (reachable_vertex _ (named 1 "a")), reachable_empty.
Qed.

Lemma sublist_List_filter {A : Type} (p : A → bool) (l : list A) :
  sublist (List.filter p l) l.
Proof.
  induction l as [|x l IH]; simpl; [constructor|].
  destruct (p x); by constructor.
Qed.

(** A test on the values of a [Map] that amounts to a test of the key against
    [k] selects what [get] finds under [k]. *)
Lemma filter_values_by_key {K V : Type} `{EqDecision K} (m : list (K * V))
    (p : V → bool) (k : K) :
  NoDup (Map_keys m) →
  (∀ k' r, (k', r) ∈ m → p r = bool_decide (k' = k)) →
  List.filter p (Map_values m) = option_list (Map_get k m).
Proof.
  unfold Map_keys, Map_values. induction m as [|[k' r] m IH]; intros Hnd Hp; [done|].
  rewrite fmap_cons in Hnd. apply NoDup_cons in Hnd as [Hk' Hnd].
  specialize (IH Hnd (λ k0 r0 Hin, Hp k0 r0 (list_elem_of_further _ _ _ Hin))).
  simpl. rewrite (Hp k' r) by left.
  destruct (decide (k = k')) as [->|Hne].
  - rewrite bool_decide_eq_true_2 by done. simpl. f_equal.
    change (List.filter p m.*2 = []). rewrite IH.
    simpl in Hk'. by apply Map_get_None in Hk' as ->.
  - rewrite bool_decide_eq_false_2 by congruence. apply IH.
Qed.

Lemma inherited_not_reserved key :
  inherited key = true → key ≠ "_id" ∧ key ≠ "_out" ∧ key ≠ "_in" ∧ key ≠ "_label".
Proof.
  intros Hin. split_and!; intros ->; by vm_compute in Hin.
Qed.

(** X8.  In a reachable store, [searchVertices] with an object as filter
    returns, in the order of insertion, exactly the stored vertices that read
    under every key of the filter the value the filter holds there, a value
    that is not [NaN]; a filter on [_id] alone returns what [findVertexById]
    finds; and under a key that every object inherits, a vertex matches only
    by a property of its own. *)
Theorem searchVertices_matches g (o : gmap string prim) :
  reachable g →
  (∀ r, r ∈ searchVertices g (AObj o)
        ↔ r ∈ Map_values (vertices g)
          ∧ ∃ vx, vheap g !! r = Some vx
                  ∧ ∀ key p, o !! key = Some p →
                             vertex_get vx key = VPrim p ∧ p ≠ PNaN)
  ∧ sublist (searchVertices g (AObj o)) (Map_values (vertices g))
  ∧ (∀ id, searchVertices g (AObj {[ "_id" := id ]})
           = option_list (findVertexById g id))
  ∧ (∀ key p r vx, o !! key = Some p → inherited key = true →
       r ∈ searchVertices g (AObj o) → vheap g !! r = Some vx →
       v_props vx !! key = Some p).
Proof.
  intros Hreach. pose proof (reachable_wf g Hreach) as Hwf.
  assert (Hmatch : ∀ r, r ∈ searchVertices g (AObj o)
        ↔ r ∈ Map_values (vertices g)
          ∧ ∃ vx, vheap g !! r = Some vx
                  ∧ ∀ key p, o !! key = Some p →
                             vertex_get vx key = VPrim p ∧ p ≠ PNaN).
  { intros r. unfold searchVertices.
    rewrite list_elem_of_In, filter_In, <- list_elem_of_In.
    apply and_iff_compat_l.
    destruct (vheap g !! r) as [vx|]; [|split; [done|by intros (? & ? & _)]].
    unfold objectFilter. rewrite forallb_forall. simpl. split.
    - intros Hall. exists vx. split; [done|]. intros key p Hkp.
      apply elem_of_map_to_list, list_elem_of_In, Hall in Hkp.
      apply andb_true_iff in Hkp as [Heq Hnan]. simpl in Heq, Hnan.
      apply bool_decide_eq_true in Heq. split; [done|].
      intros ->. done.
    - intros (vx' & [= <-] & Hall) [key p] Hin. simpl.
      destruct (Hall key p) as [Heq Hnan].
      { apply elem_of_map_to_list. by apply list_elem_of_In. }
      unfold strict_eq. rewrite bool_decide_eq_true_2 by done.
      by destruct p. }
  split_and!.
  - done.
  - apply sublist_List_filter.
  - intros id. unfold searchVertices, findVertexById. rewrite (wf_vindex g Hwf).
    destruct (is_nan id) eqn:Hnan.
    + destruct id; try done.
      assert (Map_get PNaN (vertices g) = None) as ->.
      { destruct (Map_get PNaN (vertices g)) as [r|] eqn:Hget; [|done].
        apply Map_get_elem in Hget. by destruct (wf_vobj g Hwf _ _ Hget). }
      clear Hmatch. simpl.
      induction (Map_values (vertices g)) as [|r l IH]; [done|].
      simpl. rewrite IH.
      destruct (vheap g !! r) as [vx|]; [|done].
      unfold objectFilter, enumerate. rewrite map_to_list_singleton.
      unfold strict_eq. simpl. by rewrite andb_false_r.
    + apply filter_values_by_key; [apply (wf_vkeys g Hwf)|].
      intros k r Hin. destruct (wf_vobj g Hwf k r Hin) as (_ & vx & -> & <-).
      unfold objectFilter, enumerate. rewrite map_to_list_singleton. simpl.
      unfold strict_eq. rewrite Hnan, andb_true_r. simpl.
      unfold vertex_get. simpl. rewrite andb_true_r.
      apply bool_decide_ext. split; congruence.
  - intros key p r vx Hkp Hin Hr Hvx.
    apply Hmatch in Hr as (_ & vx' & Hvx' & Hall).
    rewrite Hvx in Hvx'. injection Hvx' as <-.
    destruct (Hall key p Hkp) as [Hget _].
    destruct (inherited_not_reserved key Hin) as (Hid & Hout & Hin' & _).
    unfold vertex_get in Hget.
    rewrite !bool_decide_eq_false_2 in Hget by done.
    unfold own_or_inherited in Hget. rewrite Hin in Hget.
    destruct (v_props vx !! key); [congruence|discriminate Hget].
Qed.

(** The vertex named "b", found by its name and by its id; no vertex of the
    scenarios owns a property [constructor]. *)
Lemma searchVertices_matches_witness :
  searchVertices scenario_store (AObj {[ "name" := PStr "b" ]}) = [1%nat]
  ∧ searchVertices scenario_store (AObj {[ "_id" := PNum 2 ]})
    = option_list (findVertexById scenario_store (PNum 2))
  ∧ searchVertices scenario_store (AObj {[ "constructor" := PUndef ]}) = [].
Proof.
  destruct (searchVertices_matches scenario_store {[ "name" := PStr "b" ]}
              scenario_store_reachable) as (_ & _ & Hid & _).
  split_and!; [by vm_compute | exact (Hid (PNum 2)) | by vm_compute].
Defined.

(** X9.  The snapshot of a reachable JSON-safe store is self-contained: it
    has one vertex per stored vertex and one edge per indexed edge, its
    vertices have pairwise distinct truthy ids, and both endpoint ids of each
    of its edges are ids of its vertices; so the store rebuilt from it holds
    as many vertices and as many edges as the snapshot: no insertion of the
    rebuilding is refused, and none replaces another. *)
Theorem jsonify_self_contained g :
  reachable g → json_safe g = true →
  length (V (jsonify g)) = length (vertices g)
  ∧ length (E (jsonify g)) = length (edges g)
  ∧ NoDup (va_id <$> V (jsonify g))
  ∧ Forall (λ vx, truthy (va_id vx) = true) (V (jsonify g))
  ∧ Forall (λ e, ea_out e ∈ va_id <$> V (jsonify g)
                 ∧ ea_in e ∈ va_id <$> V (jsonify g)) (E (jsonify g))
  ∧ length (vertices (fromString (jsonify g))) = length (V (jsonify g))
  ∧ length (edges (fromString (jsonify g))) = length (E (jsonify g)).
Proof.
  intros Hreach Hsafe. pose proof (reachable_wf g Hreach) as Hwf.
  pose proof (jsonify_vertex_rows g Hwf Hsafe) as HV.
  pose proof (jsonify_edge_rows g Hwf Hsafe) as HE.
  destruct (jsonify_vertices_plain g Hwf Hsafe) as [HVid Hplain].
  destruct (round_trip_rows g Hreach Hsafe) as [Hv He].
  assert (HlenV : length (V (jsonify g)) = length (vertices g)).
  { rewrite <- (length_fmap vertex_row_of_arg), HV. unfold vertex_rows.
    by rewrite length_fmap. }
  assert (HlenE : length (E (jsonify g)) = length (edges g)).
  { rewrite <- (length_fmap edge_row_of_arg), HE. unfold edge_rows.
    by rewrite length_fmap. }
  split_and!.
  - done.
  - done.
  - rewrite HVid. apply (wf_vkeys g Hwf).
  - eapply Forall_impl; [exact Hplain|]. by intros vx (_ & _ & ?).
  - rewrite HVid. apply (jsonify_edges_closed g Hwf Hsafe).
  - rewrite HlenV. apply (f_equal length) in Hv. unfold vertex_rows in Hv.
    by rewrite !length_fmap in Hv.
  - rewrite HlenE. apply (f_equal length) in He. unfold edge_rows in He.
    by rewrite !length_fmap in He.
Qed.

Lemma jsonify_self_contained_witness :
  length (V (jsonify scenario_store)) = 2%nat
  ∧ length (E (jsonify scenario_store)) = 1%nat
  ∧ length (vertices (fromString (jsonify scenario_store))) = 2%nat
  ∧ va_id <$> V (jsonify scenario_store) = [PNum 1; PNum 2].
Proof.
  destruct (jsonify_self_contained scenario_store scenario_store_reachable eq_refl)
    as (Hv & He & _ & _ & _ & Hv' & _).
  split_and!; [exact Hv | exact He | by rewrite Hv' | by vm_compute].
Defined.

(* ===================================================================== *)
(** * Further properties of the stages and of aliases *)
(* ===================================================================== *)

(** X10.  [as] and the stages that read its mark.  Once [as] has marked the
    vertex of a gremlin under a label, [back] with that label sends any
    gremlin that shares the state object to the marked vertex, on the same
    state object and without the [result] it carried; [except] with that
    label drops such a gremlin exactly when it stands on the marked vertex;
    and the marks under other labels are as before. *)
Theorem as_then_back g label rest rest' gr gr2 state state2 h :
  is_Some (h !! g_state gr) →
  g_state gr2 = g_state gr →
  ∃ h',
    pipe_as g (label :: rest) (Some gr) state h = Step (Emit gr) state h'
    ∧ pipe_back g (label :: rest') (Some gr2) state2 h'
      = Step (Emit {| g_vertex := g_vertex gr; g_state := g_state gr;
                      g_result := VPrim PUndef |}) state2 h'
    ∧ pipe_except g (label :: rest') (Some gr2) state2 h'
      = Step (if decide (g_vertex gr2 = g_vertex gr) then Pull else Emit gr2)
             state2 h'
    ∧ (∀ other, property_key other ≠ property_key label →
         checkpoint h' gr2 other = checkpoint h gr2 other).
Proof.
  intros [as_ Has] Hshare. eexists. split.
  { unfold pipe_as. change (arg0 (label :: rest)) with label. by rewrite Has. }
  set (marks := <[property_key label := g_vertex gr]> (default ∅ as_)).
  assert (Hh' : <[g_state gr := Some marks]> h !! g_state gr2 = Some (Some marks)).
  { rewrite Hshare. apply list_lookup_insert_eq. by apply lookup_lt_Some in Has. }
  assert (Hmark : checkpoint (<[g_state gr := Some marks]> h) gr2 label
                  = Some (Some (g_vertex gr))).
  { unfold checkpoint. rewrite Hh'. simpl. unfold marks. by rewrite lookup_insert_eq. }
  split_and!.
  - unfold pipe_back. change (arg0 (label :: rest')) with label. rewrite Hmark.
    simpl. by rewrite Hshare.
  - unfold pipe_except. change (arg0 (label :: rest')) with label. rewrite Hmark.
    case_bool_decide as Heq; case_decide; try done; congruence.
  - intros other Hother. unfold checkpoint. rewrite Hh', Hshare, Has. simpl.
    unfold marks. rewrite lookup_insert_ne by done. by destruct as_.
Qed.

Lemma as_then_back_witness :
  let gr := {| g_vertex := 0%nat; g_state := 0%nat; g_result := VPrim PUndef |} in
  let gr2 := {| g_vertex := 1%nat; g_state := 0%nat; g_result := VPrim (PStr "b") |} in
  ∃ h',
    pipe_as scenario_store [APrim (PStr "start")] (Some gr) empty_state [None]
    = Step (Emit gr) empty_state h'
    ∧ pipe_back scenario_store [APrim (PStr "start")] (Some gr2) empty_state h'
      = Step (Emit gr) empty_state h'.
Proof.
  intros gr gr2.
  destruct (as_then_back scenario_store (APrim (PStr "start")) [] [] gr gr2
              empty_state empty_state [None]) as (h' & Has & Hback & _).
  - by eexists.
  - reflexivity.
  - exists h'. split; [exact Has | exact Hback].
Defined.

(** X11.  [Dagoba.extend] never overrides an argument the caller supplied,
    puts the default wherever the caller supplied nothing or [undefined], is
    as long as the longer of the two arrays, and applied a second time
    changes nothing. *)
Theorem extend_keeps_supplied (args defaults : list arg) :
  length (extend args defaults) = (length args `max` length defaults)%nat
  ∧ (∀ i a, args !! i = Some a → is_undefined a = false →
       extend args defaults !! i = Some a)
  ∧ (∀ i, (i < length defaults)%nat →
       (∀ a, args !! i = Some a → is_undefined a = true) →
       extend args defaults !! i = defaults !! i)
  ∧ (∀ i, (length defaults ≤ i)%nat → extend args defaults !! i = args !! i)
  ∧ extend (extend args defaults) defaults = extend args defaults.
Proof.
  revert args. induction defaults as [|d ds IH]; intros args.
  { destruct args; simpl; split_and!; try done; lia. }
  destruct (IH []) as (Hl0 & _ & Hd0 & Hr0 & Hi0).
  destruct args as [|a args]; simpl;
    [|destruct (IH args) as (Hl & Hk & Hd & Hr & Hi)].
  - split_and!.
    + rewrite Hl0. simpl. lia.
    + intros i a Hi. done.
    + intros [|i] Hlt _; [done|]. simpl. apply Hd0; [lia|done].
    + intros [|i] Hle; [lia|]. simpl. rewrite Hr0 by lia. done.
    + destruct (is_undefined d); by rewrite Hi0.
  - split_and!.
    + rewrite Hl. lia.
    + intros [|i] a' Ha' Hu; simpl in *.
      * injection Ha' as ->. by rewrite Hu.
      * by apply Hk.
    + intros [|i] Hlt Hu; simpl in *.
      * by rewrite (Hu a eq_refl).
      * apply Hd; [lia|done].
    + intros [|i] Hle; [lia|]. simpl. apply Hr. lia.
    + rewrite Hi. f_equal. destruct (is_undefined a) eqn:Ha; [|by rewrite Ha].
      by destruct (is_undefined d).
Qed.

Lemma extend_keeps_supplied_witness :
  extend [APrim PUndef; APrim (PStr "x")]
         [APrim (PStr "d0"); APrim (PStr "d1"); APrim (PStr "d2")] !! 1%nat
  = Some (APrim (PStr "x"))
  ∧ extend [APrim PUndef; APrim (PStr "x")]
           [APrim (PStr "d0"); APrim (PStr "d1"); APrim (PStr "d2")] !! 0%nat
    = Some (APrim (PStr "d0")).
Proof.
  destruct (extend_keeps_supplied [APrim PUndef; APrim (PStr "x")]
              [APrim (PStr "d0"); APrim (PStr "d1"); APrim (PStr "d2")])
    as (_ & Hkeep & Hfill & _).
  split.
  - by apply Hkeep.
  - rewrite Hfill; [done|simpl; lia|]. by intros a [= <-].
Defined.

(** X12.  The rewriting that [addAlias] builds turns every step named by the
    alias into a step of the target stage whose arguments are the caller's,
    completed by the defaults, leaves every other step as it is, and, when
    the two names differ, leaves no step named by the alias. *)
Theorem alias_rewrite_steps newname oldname defaults (program : list step) :
  length (alias_rewrite newname oldname defaults program) = length program
  ∧ (∀ i args, program !! i = Some (newname, args) →
       alias_rewrite newname oldname defaults program !! i
       = Some (oldname, extend args defaults))
  ∧ (∀ i name args, program !! i = Some (name, args) → name ≠ newname →
       alias_rewrite newname oldname defaults program !! i = Some (name, args))
  ∧ (oldname ≠ newname →
       Forall (λ st : step, st.1 ≠ newname)
              (alias_rewrite newname oldname defaults program)).
Proof.
  unfold alias_rewrite. split_and!.
  - apply length_fmap.
  - intros i args Hi. apply list_lookup_fmap_Some. exists (newname, args).
    split; [|exact Hi].
    simpl. by rewrite bool_decide_eq_false_2 by (intros H; by apply H).
  - intros i name args Hi Hne. apply list_lookup_fmap_Some. exists (name, args).
    split; [|exact Hi]. simpl. by rewrite bool_decide_eq_true_2.
  - intros Hne. apply Forall_fmap, Forall_forall. intros [name args] _. simpl.
    case_bool_decide; simpl; done.
Qed.

Lemma alias_rewrite_steps_witness :
  Forall (λ st : step, st.1 ≠ "parents")
    (alias_rewrite "parents" "out" [APrim (PStr "parent")]
       [("vertex", []); ("parents", [])])
  ∧ alias_rewrite "parents" "out" [APrim (PStr "parent")]
      [("vertex", []); ("parents", [])]
    = [("vertex", []); ("out", [APrim (PStr "parent")])].
Proof.
  split; [|reflexivity].
  by apply (alias_rewrite_steps "parents" "out" [APrim (PStr "parent")]
              [("vertex", []); ("parents", [])]).
Defined.

(* ===================================================================== *)
(** * Further properties of the engine *)
(* ===================================================================== *)

Lemma settle_in_range max c s st h :
  in_range max c → (done c < max)%Z →
  in_range max (settle max c s st h).1
  ∧ (done c ≤ done (settle max c s st h).1)%Z.
Proof.
  unfold in_range, settle, move_on. intros [Hd Hr] Hlt.
  destruct (Hr Hlt) as [Hpc H0].
  destruct s; simpl;
    repeat match goal with
           | |- context [(?a >? ?b)%Z] => destruct (Z.gtb_spec a b); simpl
           end; lia.
Qed.

Lemma start_in_range program sts h :
  in_range (Z.of_nat (length program) - 1) (start program sts h).
Proof. unfold in_range, start. simpl. lia. Qed.

Section cursors.
Context (registry : gmap string pipetype) (g : graph) (program : list step).
Let max : Z := (Z.of_nat (length program) - 1)%Z.

Lemma calls_ahead fuel : ∀ c,
  in_range max c →
  Forall (λ x, (done c < call_pc x ≤ max)%Z ∧ (0 ≤ call_pc x)%Z)
         (calls registry g program fuel c).
Proof.
  induction fuel as [|fuel IH]; intros c Hin; simpl.
  { by destruct (done c <? _)%Z. }
  destruct (Z.ltb_spec (done c) (Z.of_nat (length program) - 1)) as [Hlt|]; [|done].
  destruct (call_stage registry g program c) as [s st h| |]; [|done|done].
  destruct (settle_in_range max c s st h Hin Hlt) as [Hin' Hle].
  constructor.
  - simpl. destruct Hin as [_ Hr]. destruct (Hr Hlt). lia.
  - eapply Forall_impl; [apply IH, Hin'|]. simpl. intros x. fold max. lia.
Qed.

(** The calls after a given call are those of the loop resumed after it. *)
Lemma calls_suffix tr1 : ∀ fuel c x tr2,
  in_range max c →
  calls registry g program fuel c = tr1 ++ x :: tr2 →
  ∃ fuel' c' st h,
    in_range max c' ∧ (done c' < max)%Z
    ∧ call_stage registry g program c' = Step (call_out x) st h
    ∧ pc c' = call_pc x ∧ maybeGremlin c' = call_in x
    ∧ tr2 = calls registry g program fuel' (settle max c' (call_out x) st h).1.
Proof.
  induction tr1 as [|y tr1 IH]; intros fuel c x tr2 Hin Hcalls;
    destruct fuel as [|fuel]; simpl in Hcalls;
    destruct (Z.ltb_spec (done c) (Z.of_nat (length program) - 1)) as [Hlt|];
    try done;
    destruct (call_stage registry g program c) as [s st h| |] eqn:Hcall; try done.
  - injection Hcalls as <- <-. exists fuel, c, st, h. simpl. by split_and!.
  - injection Hcalls as <- Hcalls.
    destruct (settle_in_range max c s st h Hin Hlt) as [Hin' _].
    by apply (IH fuel _ x tr2 Hin').
Qed.
End cursors.

(** X13.  From the start of a run, every call of a stage is at a position of
    the program, and once a stage has returned ['done'] no later call is at
    its position or upstream of it. *)
Theorem done_is_final registry g program sts h fuel tr1 x tr2 :
  calls registry g program fuel (start program sts h) = tr1 ++ x :: tr2 →
  (0 ≤ call_pc x < Z.of_nat (length program))%Z
  ∧ (call_out x = Done → Forall (λ y, (call_pc x < call_pc y)%Z) tr2).
Proof.
  intros Hcalls.
  destruct (calls_suffix registry g program tr1 fuel _ x tr2
              (start_in_range program sts h) Hcalls)
    as (fuel' & c' & st & h' & Hin & Hlt & Hcall & Hpc & _ & ->).
  split.
  - destruct Hin as [_ Hr]. destruct (Hr Hlt). lia.
  - intros Hdone. rewrite Hdone.
    destruct (settle_in_range _ c' Done st h' Hin Hlt) as [Hin' _].
    eapply Forall_impl; [apply calls_ahead, Hin'|].
    simpl. intros y [Hy _]. rewrite <- Hpc.
    unfold settle, move_on in Hy. simpl in Hy.
    destruct (Z.gtb_spec (pc c' + 1) (Z.of_nat (length program) - 1));
      simpl in Hy; lia.
Qed.

Lemma done_is_final_witness :
  let program := q_program scenario_B in
  ∃ tr1 tr2,
    calls Pipetypes scenario_store program 20 (start program ∅ [])
    = tr1 ++ {| call_pc := 0; call_in := None; call_out := Done |} :: tr2
    ∧ Forall (λ y, (0 < call_pc y)%Z) tr2.
Proof.
  intros program.
  assert (Htr : ∃ tr1 tr2,
    calls Pipetypes scenario_store program 20 (start program ∅ [])
    = tr1 ++ {| call_pc := 0; call_in := None; call_out := Done |} :: tr2).
  { vm_compute. eexists (_ :: _ :: _ :: _ :: _ :: _ :: _ :: []), _. reflexivity. }
  destruct Htr as (tr1 & tr2 & Htr). exists tr1, tr2. split; [exact Htr|].
  by apply (done_is_final Pipetypes scenario_store program ∅ [] 20 tr1 _ tr2 Htr).
Defined.

Lemma emit_count_cons pos x l :
  emit_count pos (x :: l)
  = ((if bool_decide (call_pc x = pos) && is_emit (call_out x) then 1 else 0)
     + emit_count pos l)%nat.
Proof. unfold emit_count. simpl. by destruct (_ && _). Qed.

Lemma emit_count_ahead pos l :
  Forall (λ x, (pos < call_pc x)%Z) l → emit_count pos l = 0%nat.
Proof.
  induction 1 as [|x l Hx _ IH]; [done|].
  rewrite emit_count_cons, IH. rewrite bool_decide_eq_false_2 by lia. done.
Qed.

Lemma taken_at_here max c s state h pos :
  pc c = pos → taken_at (settle max c s state h).1 pos = default 0 (st_taken state).
Proof.
  intros <-. unfold taken_at. rewrite settle_states. by rewrite lookup_insert_eq.
Qed.

Lemma taken_at_other max c s state h pos :
  pc c ≠ pos → taken_at (settle max c s state h).1 pos = taken_at c pos.
Proof.
  intros Hne. unfold taken_at. rewrite settle_states. by rewrite lookup_insert_ne.
Qed.

Section take_stage.
Context (registry : gmap string pipetype) (g : graph) (program : list step).
Context (pos n : Z) (rest : list arg).
Hypothesis Hreg : registry !! "take" = Some pipe_take.
Hypothesis Hpos : at_index program pos = Some ("take", APrim (PNum n) :: rest).

Lemma calls_take fuel : ∀ c,
  in_range (Z.of_nat (length program) - 1) c →
  (0 ≤ taken_at c pos ≤ n)%Z →
  (emit_count pos (calls registry g program fuel c)
   ≤ Z.to_nat (n - taken_at c pos))%nat.
Proof.
  induction fuel as [|fuel IH]; intros c Hin Htaken; simpl.
  { destruct (done c <? _)%Z; unfold emit_count; simpl; lia. }
  destruct (Z.ltb_spec (done c) (Z.of_nat (length program) - 1)) as [Hlt|];
    [|unfold emit_count; simpl; lia].
  destruct (call_stage registry g program c) as [s state h| |] eqn:Hcall;
    [|unfold emit_count; simpl; lia..].
  destruct (settle_in_range _ c s state h Hin Hlt) as [Hin' _].
  rewrite emit_count_cons. simpl.
  destruct (decide (pc c = pos)) as [Hpc|Hpc].
  - unfold call_stage in Hcall. rewrite Hpc, Hpos in Hcall.
    unfold getPipetype in Hcall. rewrite Hreg in Hcall. simpl in Hcall.
    unfold pipe_take in Hcall.
    change (arg0 (APrim (PNum n) :: rest)) with (APrim (PNum n)) in Hcall.
    assert (Ht : default 0%Z (st_taken (default empty_state (states c !! pos)))
                 = taken_at c pos).
    { unfold taken_at. by destruct (states c !! pos). }
    rewrite Ht in Hcall. case_bool_decide as Hlim.
    + injection Hcall as <- <- <-. simpl. rewrite andb_false_r. simpl.
      rewrite emit_count_ahead; [lia|].
      eapply Forall_impl; [apply calls_ahead, Hin'|]. simpl. intros y [Hy _].
      unfold settle, move_on in Hy. simpl in Hy.
      destruct (Z.gtb_spec (pc c + 1) (Z.of_nat (length program) - 1));
        simpl in Hy; lia.
    + destruct (maybeGremlin c) as [gr|]; injection Hcall as <- <- <-; simpl.
      * rewrite bool_decide_eq_true_2 by done. simpl.
        specialize (IH _ Hin'). rewrite taken_at_here in IH by done.
        simpl in IH. specialize (IH ltac:(lia)). lia.
      * rewrite andb_false_r. simpl.
        specialize (IH _ Hin'). rewrite taken_at_here in IH by done.
        simpl in IH. specialize (IH ltac:(lia)). lia.
  - rewrite bool_decide_eq_false_2 by done. simpl.
    specialize (IH _ Hin'). rewrite taken_at_other in IH by done.
    by apply IH.
Qed.
End take_stage.

Lemma Pipetypes_take : Pipetypes !! "take" = Some pipe_take.
Proof.
  unfold Pipetypes, addPipetype.
  repeat (rewrite lookup_insert_ne by done). apply lookup_insert_eq.
Qed.

(** X14.  In a run on fresh stage state, a [take] stage whose count is an
    integer [n ≥ 0] returns at most [n] gremlins, wherever it stands in the
    program and whatever the other stages do. *)
Theorem take_passes_at_most registry g program pos n rest sts h fuel :
  registry !! "take" = Some pipe_take →
  at_index program pos = Some ("take", APrim (PNum n) :: rest) →
  (0 ≤ n)%Z →
  sts !! pos = None →
  (emit_count pos (calls registry g program fuel (start program sts h))
   ≤ Z.to_nat n)%nat.
Proof.
  intros Hreg Hpos Hn Hfresh.
  pose proof (calls_take registry g program pos n rest Hreg Hpos fuel
                (start program sts h) (start_in_range program sts h)) as Hle.
  assert (Ht : taken_at (start program sts h) pos = 0%Z).
  { unfold taken_at, start. simpl. by rewrite Hfresh. }
  rewrite Ht in Hle. rewrite Z.sub_0_r in Hle. apply Hle. lia.
Qed.

Lemma take_passes_at_most_witness :
  (emit_count 1 (calls Pipetypes scenario_store (q_program take_query) 20
                   (start (q_program take_query) ∅ [])) ≤ 1)%nat
  ∧ run [] Pipetypes take_query [] 20 = ([VVertex 1%nat], Halted).
Proof.
  split.
  - refine (take_passes_at_most Pipetypes scenario_store (q_program take_query)
              1 1 [] ∅ [] 20 Pipetypes_take _ _ _).
    + vm_compute. reflexivity.
    + lia.
    + reflexivity.
  - vm_compute. reflexivity.
Defined.

(** ** Which runs can throw *)

Lemma pop_Some {A : Type} (l : list A) x rest :
  pop l = Some (x, rest) → l = rest ++ [x].
Proof.
  unfold pop. destruct (reverse l) as [|y r] eqn:E; [done|]. intros [= <- <-].
  rewrite <- (reverse_involutive l), E. by rewrite reverse_cons.
Qed.

Lemma kept_empty : kept empty_state.
Proof. by intros ?. Qed.

Lemma kept_frame st st' :
  st_edges st' = st_edges st → st_gremlin st' = st_gremlin st → kept st → kept st'.
Proof. unfold kept, no_edges. by intros -> ->. Qed.

Lemma state_ok_empty g h : state_ok g h empty_state.
Proof. by split_and!. Qed.

Lemma gremlin_ok_mono g h h' gr :
  (length h ≤ length h')%nat → gremlin_ok g h gr → gremlin_ok g h' gr.
Proof. unfold gremlin_ok. lia. Qed.

Lemma state_ok_mono g h h' st :
  (length h ≤ length h')%nat → state_ok g h st → state_ok g h' st.
Proof.
  intros Hle (Hv & He & Hg & Hk). split_and!; try done.
  intros gr Hgr. eapply gremlin_ok_mono; eauto.
Qed.

(** A stage that writes neither [edges] nor [gremlin]. *)
Lemma state_ok_frame g h st st' :
  st_edges st' = st_edges st → st_gremlin st' = st_gremlin st →
  (∀ vs, st_vertices st' = Some vs → Forall (λ r, (r < length (vheap g))%nat) vs) →
  state_ok g h st → state_ok g h st'.
Proof.
  intros Ee Eg Hv' (Hv & He & Hg & Hk).
  split_and!; [done|by rewrite Ee|by rewrite Eg|by eapply kept_frame].
Qed.

Lemma makeGremlin_ok g h vertex state gr h' :
  heap_ok g h → (vertex < length (vheap g))%nat →
  (∀ s, state = Some s → (s < length h)%nat) →
  makeGremlin vertex state h = (gr, h') →
  (length h ≤ length h')%nat ∧ heap_ok g h' ∧ gremlin_ok g h' gr.
Proof.
  intros Hh Hv Hs. unfold makeGremlin. destruct state as [s|]; intros [= <- <-].
  - split_and!; [done|done|]. split; simpl; [done|by apply Hs].
  - split_and!; [rewrite length_app; lia| |split; simpl; [done|rewrite length_app; simpl; lia]].
    intros s marks label r Hl Hm.
    apply lookup_snoc_Some in Hl as [[_ Hl]|[_ Hl]]; [by eapply Hh|done].
Qed.

Lemma findVertices_closed g args :
  store_closed g → Forall (λ r, (r < length (vheap g))%nat) (findVertices g args).
Proof.
  intros Hcl.
  assert (Hall : ∀ r, r ∈ Map_values (vertices g) → (r < length (vheap g))%nat).
  { intros r Hr. apply list_elem_of_fmap in Hr as [[id r'] [-> Hin]].
    by eapply (cl_vertices g Hcl). }
  apply Forall_forall. intros r. unfold findVertices.
  destruct (typeof_object (arg0 args)).
  - unfold searchVertices. rewrite list_elem_of_In, filter_In, <- list_elem_of_In.
    intros [Hr _]. by apply Hall.
  - case_bool_decide; [apply Hall|].
    rewrite findVerticesByIds_loop. intros Hr.
    apply list_elem_of_omap in Hr as (id & _ & Hfind).
    destruct id as [p| | |]; try done. by eapply (cl_index g Hcl).
Qed.

Lemma filter_edges_total g flt l :
  Forall (λ r, (r < length (eheap g))%nat) l →
  ∃ es, filter_edges g flt l = Some es
        ∧ Forall (λ r, (r < length (eheap g))%nat) es.
Proof.
  induction 1 as [|r l Hr Hl (es & Hfe & Hes)]; simpl; [by exists []|].
  apply lookup_lt_is_Some_2 in Hr as Hr'. destruct Hr' as [e ->]. rewrite Hfe.
  eexists. split; [done|]. destruct (filterEdges flt e); [by constructor|done].
Qed.

Lemma traverse_next_total edge_list g st h :
  store_closed g → edge_list = e_in ∨ edge_list = e_out →
  heap_ok g h → state_ok g h st →
  ∃ s st' h', traverse_next edge_list g st h = Step s st' h'
    ∧ (length h ≤ length h')%nat ∧ heap_ok g h' ∧ state_ok g h' st'
    ∧ (∀ gr, s = Emit gr → gremlin_ok g h' gr).
Proof.
  intros Hcl Hdir Hh Hst. unfold traverse_next.
  destruct (pop (default [] (st_edges st))) as [[r rest]|] eqn:Hpop.
  2:{ exists Pull, st, h. by split_and!. }
  apply pop_Some in Hpop.
  destruct Hst as (Hv & He & Hg & Hk).
  destruct (st_edges st) as [es|] eqn:Hes; simpl in Hpop; [|by destruct rest].
  subst es. pose proof (He _ eq_refl) as Hin.
  apply Forall_app in Hin as [Hrest Hr]. rewrite Forall_singleton in Hr.
  apply lookup_lt_is_Some_2 in Hr as [e He']. rewrite He'.
  destruct Hk as [kgr Hkgr].
  { unfold no_edges. rewrite Hes. apply bool_decide_eq_false_2. by destruct rest. }
  rewrite Hkgr. unfold gotoVertex, makeGremlin.
  eexists _, _, _. split; [reflexivity|].
  destruct (Hg _ Hkgr) as [Hkv Hks]. destruct (cl_ends g Hcl r e He') as [Ho Hi].
  split_and!; [done|done| |].
  - split_and!; simpl.
    + done.
    + by intros es [= <-].
    + done.
    + intros _. simpl. by eexists.
  - intros gr [= <-]. split; simpl; [|done]. by destruct Hdir as [-> | ->].
Qed.

Lemma simpleTraversal_total g dir : store_closed g → stage_total g (simpleTraversal dir).
Proof.
  intros Hcl args gremlin st h Hh Hst Hgr. unfold simpleTraversal.
  assert (Hdir : (if bool_decide (dir = "out") then e_in else e_out) = e_in
                 ∨ (if bool_decide (dir = "out") then e_in else e_out) = e_out).
  { case_bool_decide; auto. }
  destruct gremlin as [gr|], (no_edges st) eqn:Hno.
  - destruct (Hgr gr eq_refl) as [Hv Hs].
    apply lookup_lt_is_Some_2 in Hv as Hv'. destruct Hv' as [vx Hvx].
    destruct (cl_arrays g Hcl _ vx Hvx) as [Hout Hin].
    assert (Hfound : ∃ l,
      (if bool_decide (dir = "out") then findOutEdges else findInEdges)
        g (g_vertex gr) = Some l
      ∧ Forall (λ r, (r < length (eheap g))%nat) l).
    { unfold findOutEdges, findInEdges. case_bool_decide; rewrite Hvx; simpl; eauto. }
    destruct Hfound as (l & -> & Hl). simpl.
    destruct (filter_edges_total g (arg0 args) l Hl) as (es & -> & Hes).
    apply traverse_next_total; try done.
    destruct Hst as (Hv' & He' & Hg' & Hk').
    split_and!; simpl.
    + done.
    + by intros ? [= <-].
    + intros ? [= <-]. by apply Hgr.
    + intros _. simpl. by eexists.
  - by apply traverse_next_total.
  - exists Pull, st, h. by split_and!.
  - by apply traverse_next_total.
Qed.

Lemma pipe_vertex_total g : store_closed g → stage_total g pipe_vertex.
Proof.
  intros Hcl args gremlin st h Hh Hst Hgr. unfold pipe_vertex.
  set (vs := match st_vertices st with
             | None => findVertices g args
             | Some vs => vs
             end).
  assert (Hvs : Forall (λ r, (r < length (vheap g))%nat) vs).
  { unfold vs. destruct (st_vertices st) eqn:E; [|by apply findVertices_closed].
    destruct Hst as (Hv & _). by apply Hv. }
  destruct (pop vs) as [[vertex rest]|] eqn:Hpop.
  - apply pop_Some in Hpop. rewrite Hpop in Hvs.
    apply Forall_app in Hvs as [Hrest Hvertex]. rewrite Forall_singleton in Hvertex.
    destruct (makeGremlin vertex (g_state <$> gremlin) h) as [gr h'] eqn:Hmk.
    destruct (makeGremlin_ok g h vertex (g_state <$> gremlin) gr h' Hh Hvertex)
      as (Hlen & Hh' & Hgr'); [|done|].
    { intros s Hs. destruct gremlin as [gr0|]; [|done]. injection Hs as <-.
      by destruct (Hgr gr0 eq_refl). }
    exists (Emit gr), (set_vertices rest st), h'. split_and!; try done.
    + apply (state_ok_frame g h' st); try done.
      * by intros ? [= <-].
      * by eapply state_ok_mono.
    + by intros ? [= <-].
  - exists Done, (set_vertices vs st), h. split_and!; try done.
    apply (state_ok_frame g h st); try done. by intros ? [= <-].
Qed.

Lemma pipe_property_total g : store_closed g → stage_total g pipe_property.
Proof.
  intros Hcl args gremlin st h Hh Hst Hgr. unfold pipe_property.
  destruct gremlin as [gr|]; [|exists Pull, st, h; by split_and!].
  destruct (Hgr gr eq_refl) as [Hv Hs].
  apply lookup_lt_is_Some_2 in Hv as Hv'. destruct Hv' as [vx ->].
  destruct (nullish _).
  - exists Empty, st, h. by split_and!.
  - eexists _, st, h. split; [done|]. split_and!; try done.
    intros gr' [= <-]. by split.
Qed.

Lemma pipe_unique_total g : store_closed g → stage_total g pipe_unique.
Proof.
  intros Hcl args gremlin st h Hh Hst Hgr. unfold pipe_unique.
  destruct gremlin as [gr|]; [|exists Pull, st, h; by split_and!].
  destruct (Hgr gr eq_refl) as [Hv Hs].
  apply lookup_lt_is_Some_2 in Hv as Hv'. destruct Hv' as [vx ->].
  destruct Hst as (Hvs & Hes & Hg & Hk).
  case_decide; eexists _, _, h; (split; [done|]); split_and!; try done.
  intros gr' [= <-]. by split.
Qed.

Lemma pipe_filter_total g : store_closed g → stage_total g pipe_filter.
Proof.
  intros Hcl args gremlin st h Hh Hst Hgr. unfold pipe_filter.
  destruct gremlin as [gr|]; [|exists Pull, st, h; by split_and!].
  pose proof (Hgr gr eq_refl) as Hok. destruct Hok as [Hv Hs].
  apply lookup_lt_is_Some_2 in Hv as Hv'. destruct Hv' as [vx ->].
  assert (Hemit : ∃ s st' h', Step (Emit gr) st h = Step s st' h'
      ∧ (length h ≤ length h')%nat ∧ heap_ok g h' ∧ state_ok g h' st'
      ∧ (∀ gr0, s = Emit gr0 → gremlin_ok g h' gr0)).
  { exists (Emit gr), st, h. split_and!; try done. intros ? [= <-]. by split. }
  assert (Hpull : ∃ s st' h', Step Pull st h = Step s st' h'
      ∧ (length h ≤ length h')%nat ∧ heap_ok g h' ∧ state_ok g h' st'
      ∧ (∀ gr0, s = Emit gr0 → gremlin_ok g h' gr0)).
  { exists Pull, st, h. by split_and!. }
  destruct (typeof_object (arg0 args)).
  - by destruct (objectFilter _ _).
  - destruct (arg0 args) as [p|o|l|src f]; try done. by destruct (f g h gr).
Qed.

Lemma pipe_take_total g : store_closed g → stage_total g pipe_take.
Proof.
  intros Hcl args gremlin st h Hh Hst Hgr. unfold pipe_take.
  destruct Hst as (Hvs & Hes & Hg & Hk).
  destruct (match arg0 args with APrim (PNum n) => _ | _ => false end);
    [|destruct gremlin as [gr|]];
    eexists _, _, h; (split; [done|]); split_and!; try done.
  intros ? [= <-]. by apply Hgr.
Qed.

Lemma pipe_as_total g : store_closed g → stage_total g pipe_as.
Proof.
  intros Hcl args gremlin st h Hh Hst Hgr. unfold pipe_as.
  destruct gremlin as [gr|]; [|exists Pull, st, h; by split_and!].
  destruct (Hgr gr eq_refl) as [Hv Hs].
  apply lookup_lt_is_Some_2 in Hs as Hs'. destruct Hs' as [as_ Has]. rewrite Has.
  eexists _, st, _. split; [done|]. rewrite length_insert. split_and!.
  - done.
  - intros s marks label r Hl Hm.
    apply list_lookup_insert_Some in Hl as [(<- & [= <-] & _)|[_ Hl]];
      [|by eapply Hh].
    apply lookup_insert_Some in Hm as [[_ <-]|[_ Hm]]; [done|].
    destruct as_ as [old|]; [by eapply Hh|done].
  - eapply state_ok_mono; [|done]. by rewrite length_insert.
  - intros ? [= <-]. split; [done|]. by rewrite length_insert.
Qed.

Lemma checkpoint_ok g h gr label :
  heap_ok g h → gremlin_ok g h gr →
  ∃ target, checkpoint h gr label = Some target
            ∧ ∀ r, target = Some r → (r < length (vheap g))%nat.
Proof.
  intros Hh [Hv Hs]. unfold checkpoint.
  apply lookup_lt_is_Some_2 in Hs as [as_ Has]. rewrite Has. simpl.
  eexists. split; [done|]. intros r Hr.
  destruct as_ as [marks|]; [|done]. simpl in Hr. by eapply Hh.
Qed.

Lemma pipe_back_total g : store_closed g → stage_total g pipe_back.
Proof.
  intros Hcl args gremlin st h Hh Hst Hgr. unfold pipe_back.
  destruct gremlin as [gr|]; [|exists Pull, st, h; by split_and!].
  pose proof (Hgr gr eq_refl) as Hok.
  destruct (checkpoint_ok g h gr (arg0 args) Hh Hok) as (target & -> & Htarget).
  destruct target as [r|]; [|exists Pull, st, h; by split_and!].
  unfold gotoVertex, makeGremlin.
  eexists _, st, h. split; [done|]. split_and!; try done.
  intros ? [= <-]. destruct Hok. split; simpl; [by apply Htarget|done].
Qed.

Lemma pipe_except_total g : store_closed g → stage_total g pipe_except.
Proof.
  intros Hcl args gremlin st h Hh Hst Hgr. unfold pipe_except.
  destruct gremlin as [gr|]; [|exists Pull, st, h; by split_and!].
  pose proof (Hgr gr eq_refl) as Hok.
  destruct (checkpoint_ok g h gr (arg0 args) Hh Hok) as (target & -> & Htarget).
  case_bool_decide; eexists _, st, h; (split; [done|]); split_and!; try done.
  by intros ? [= <-].
Qed.

Lemma fauxPipetype_total g : stage_total g fauxPipetype.
Proof.
  intros args gremlin st h Hh Hst Hgr. unfold fauxPipetype.
  destruct gremlin as [gr|]; eexists _, st, h; (split; [done|]); split_and!; try done.
  intros ? [= <-]. by apply Hgr.
Qed.

(** Every built-in stage but [merge], and the stand-in for the names that
    find nothing. *)
Lemma builtin_total g name :
  store_closed g → name ≠ "merge" → inherited name = false →
  stage_total g (getPipetype Pipetypes name).
Proof.
  intros Hcl Hname Hinh. unfold getPipetype, Pipetypes, addPipetype.
  rewrite !lookup_insert, lookup_empty, Hinh.
  repeat case_decide; try congruence.
  - by apply pipe_except_total.
  - by apply pipe_back_total.
  - by apply pipe_as_total.
  - by apply pipe_take_total.
  - by apply pipe_filter_total.
  - by apply pipe_unique_total.
  - by apply pipe_property_total.
  - by apply simpleTraversal_total.
  - by apply simpleTraversal_total.
  - by apply pipe_vertex_total.
  - apply fauxPipetype_total.
Qed.

Lemma at_index_in_range {A : Type} (l : list A) (i : Z) :
  (0 ≤ i ≤ Z.of_nat (length l) - 1)%Z → ∃ x, at_index l i = Some x ∧ x ∈ l.
Proof.
  intros Hi. unfold at_index. destruct (Z.ltb_spec i 0); [lia|].
  destruct (lookup_lt_is_Some_2 l (Z.to_nat i)) as [x Hx]; [lia|].
  exists x. split; [done|]. by eapply list_elem_of_lookup_2.
Qed.

Lemma settle_heap max c s state h : heap (settle max c s state h).1 = h.
Proof.
  unfold settle, move_on.
  destruct s; simpl; repeat (case_match; simpl); done.
Qed.

Lemma settle_gremlin max c s state h gr :
  maybeGremlin (settle max c s state h).1 = Some gr → s = Emit gr.
Proof.
  unfold settle, move_on.
  destruct s; simpl; repeat (case_match; simpl); congruence.
Qed.

Lemma settle_ok g max c s st h :
  engine_ok g c → (length (heap c) ≤ length h)%nat →
  heap_ok g h → state_ok g h st → (∀ gr, s = Emit gr → gremlin_ok g h gr) →
  engine_ok g (settle max c s st h).1.
Proof.
  intros (_ & Hsts & _) Hlen Hh Hst Hgr. unfold engine_ok.
  rewrite settle_heap, settle_states. split_and!.
  - done.
  - intros pos st' Hpos. destruct (decide (pc c = pos)) as [<-|Hne].
    + rewrite lookup_insert_eq in Hpos. by injection Hpos as <-.
    + rewrite lookup_insert_ne in Hpos by done.
      eapply state_ok_mono; [done|]. by eapply Hsts.
  - intros gr Hgr'. by apply Hgr, (settle_gremlin max c s st h).
Qed.

Lemma loop_total g program fuel : ∀ c,
  store_closed g →
  Forall (λ st : step, st.1 ≠ "merge" ∧ inherited st.1 = false) program →
  in_range (Z.of_nat (length program) - 1) c →
  engine_ok g c →
  (loop Pipetypes g program fuel c).2 = Halted
  ∨ (loop Pipetypes g program fuel c).2 = OutOfFuel.
Proof.
  intros c Hcl Hprog. revert c.
  induction fuel as [|fuel IH]; intros c Hin Hok; simpl.
  { destruct (done c <? _)%Z; auto. }
  destruct (Z.ltb_spec (done c) (Z.of_nat (length program) - 1)) as [Hlt|]; [|by left].
  assert (Hpc : (0 ≤ pc c ≤ Z.of_nat (length program) - 1)%Z).
  { destruct Hin as [_ Hr]. destruct (Hr Hlt). lia. }
  destruct (at_index_in_range program (pc c) Hpc) as ([name args] & Hat & Hmem).
  rewrite Forall_forall in Hprog. destruct (Hprog _ Hmem) as [Hname Hinh].
  destruct Hok as (Hh & Hsts & Hgr).
  assert (Hst : state_ok g (heap c) (default empty_state (states c !! pc c))).
  { destruct (states c !! pc c) eqn:E; [by eapply Hsts|apply state_ok_empty]. }
  destruct (builtin_total g name Hcl Hname Hinh args (maybeGremlin c) _ (heap c)
              Hh Hst Hgr) as (s & st' & h' & Hcall & Hlen & Hh' & Hst' & Hgr').
  unfold call_stage. rewrite Hat, Hcall.
  destruct (settle_in_range _ c s st' h' Hin Hlt) as [Hin' _].
  pose proof (settle_ok g (Z.of_nat (length program) - 1) c s st' h'
                (conj Hh (conj Hsts Hgr)) Hlen Hh' Hst' Hgr') as Hok'.
  specialize (IH _ Hin' Hok').
  destruct (settle _ c s st' h') as [c' out]. simpl in IH.
  by destruct (loop Pipetypes g program fuel c') as [outs fin].
Qed.

(** X15.  On a store built by insertions of vertices that arrive without
    adjacency arrays, a program that has no [merge] step and no step named by
    what every object inherits never throws: run with the built-in stages on
    fresh stage state, however far the loop is driven, it has halted or is
    still running.  Names that find nothing are included; predicates handed to
    [filter] are functions that return. *)
Theorem only_merge_throws l program fuel :
  forallb no_arrays l = true →
  Forall (λ st : step, st.1 ≠ "merge" ∧ inherited st.1 = false) program →
  (loop Pipetypes (insert_all empty_graph l) program fuel (start program ∅ [])).2
  ∈ [Halted; OutOfFuel].
Proof.
  intros Hno Hprog.
  destruct (loop_total (insert_all empty_graph l) program fuel (start program ∅ []))
    as [-> | ->].
  - by apply insert_all_closed; [apply empty_graph_closed|].
  - done.
  - apply start_in_range.
  - split_and!; simpl.
    + intros s marks label r Hs. by rewrite lookup_nil in Hs.
    + intros pos st Hpos. by rewrite lookup_empty in Hpos.
    + done.
  - left.
  - right. left.
Qed.

(** Scenario C does not throw; the query that merges does; so does a step
    named [__proto__], which finds an object where a stage is expected. *)
Lemma only_merge_throws_witness :
  (loop Pipetypes scenario_store (q_program scenario_C) 30
     (start (q_program scenario_C) ∅ [])).2 ∈ [Halted; OutOfFuel]
  ∧ (loop Pipetypes scenario_store (q_program merge_query) 30
       (start (q_program merge_query) ∅ [])).2 = Threw
  ∧ (loop Pipetypes scenario_store [("__proto__", [])] 30
       (start [("__proto__", [])] ∅ [])).2 = Threw.
Proof.
  split_and!.
  - apply (only_merge_throws
             [InsVertex (named 1 "a"); InsVertex (named 2 "b"); InsEdge knows_1_2]
             (q_program scenario_C) 30).
    + reflexivity.
    + repeat constructor; by vm_compute.
  - vm_compute. reflexivity.
  - vm_compute. reflexivity.
Defined.

(** ** Runs that can be followed to their end, or that have none *)

Lemma loop_step registry g program fuel c s st h :
  (done c <? Z.of_nat (length program) - 1)%Z = true →
  call_stage registry g program c = Step s st h →
  loop registry g program (S fuel) c
  = (option_list (settle (Z.of_nat (length program) - 1) c s st h).2
     ++ (loop registry g program fuel
           (settle (Z.of_nat (length program) - 1) c s st h).1).1,
     (loop registry g program fuel
        (settle (Z.of_nat (length program) - 1) c s st h).1).2).
Proof.
  intros Hlt Hcall. simpl. rewrite Hlt, Hcall.
  destruct (settle _ c s st h) as [c' out]. simpl.
  by destruct (loop registry g program fuel c') as [outs fin].
Qed.

Lemma loop_zero registry g program c :
  loop registry g program 0 c
  = if (done c <? Z.of_nat (length program) - 1)%Z then ([], OutOfFuel)
    else ([], Halted).
Proof. done. Qed.

Local Arguments loop : simpl never.
Local Arguments Pipetypes : simpl never.

Lemma Pipetypes_vertex : Pipetypes !! "vertex" = Some pipe_vertex.
Proof.
  unfold Pipetypes, addPipetype.
  repeat (rewrite lookup_insert_ne by done). apply lookup_insert_eq.
Qed.

Lemma call_stage_at registry g program c name args :
  @at_index step program (pc c) = Some (name, args) →
  call_stage registry g program c
  = getPipetype registry name g args (maybeGremlin c)
      (default empty_state (states c !! pc c)) (heap c).
Proof. unfold call_stage. by intros ->. Qed.

Lemma getPipetype_vertex : getPipetype Pipetypes "vertex" = pipe_vertex.
Proof. unfold getPipetype. by rewrite Pipetypes_vertex. Qed.

Lemma settle_last_emit sts h gr st h' :
  settle 0 {| pc := 0; done := -1; maybeGremlin := None; states := sts; heap := h |}
         (Emit gr) st h'
  = ({| pc := 0; done := -1; maybeGremlin := None; states := <[0%Z := st]> sts;
        heap := h' |}, Some (yielded gr)).
Proof. done. Qed.

Lemma settle_last_done sts h st h' :
  settle 0 {| pc := 0; done := -1; maybeGremlin := None; states := sts; heap := h |}
         Done st h'
  = ({| pc := 0; done := 0; maybeGremlin := None; states := <[0%Z := st]> sts;
        heap := h' |}, None).
Proof. done. Qed.

(** The loop over the single step [vertex], from the candidates still held. *)
Lemma vertex_loop g args (l : list vref) : ∀ sts h,
  match st_vertices (default empty_state (sts !! 0%Z)) with
  | None => findVertices g args
  | Some vs => vs
  end = l →
  loop Pipetypes g [("vertex", args)] (S (length l))
       {| pc := 0; done := -1; maybeGremlin := None; states := sts; heap := h |}
  = (VVertex <$> reverse l, Halted).
Proof.
  induction l as [|x l IH] using rev_ind; intros sts h Hl.
  - rewrite (loop_step _ _ _ _ _ Done
               (set_vertices [] (default empty_state (sts !! 0%Z))) h); [|done|].
    + change (Z.of_nat (length [("vertex", args)]) - 1)%Z with 0%Z.
      by rewrite settle_last_done, loop_zero.
    + rewrite (call_stage_at _ _ _ _ "vertex" args) by done.
      rewrite getPipetype_vertex. unfold pipe_vertex.
      cbn [pc states maybeGremlin heap]. by rewrite Hl.
  - rewrite length_app, Nat.add_1_r.
    rewrite (loop_step _ _ _ _ _
               (Emit {| g_vertex := x; g_state := length h; g_result := VPrim PUndef |})
               (set_vertices l (default empty_state (sts !! 0%Z))) (h ++ [None]));
      [|done|].
    + change (Z.of_nat (length [("vertex", args)]) - 1)%Z with 0%Z.
      rewrite settle_last_emit. cbn [fst snd option_list].
      rewrite IH by (by rewrite lookup_insert_eq).
      cbn [fst snd]. by rewrite reverse_snoc.
    + rewrite (call_stage_at _ _ _ _ "vertex" args) by done.
      rewrite getPipetype_vertex. unfold pipe_vertex.
      cbn [pc states maybeGremlin heap]. by rewrite Hl, pop_snoc.
Qed.

(** X16.  The query [g.v(...)] alone, run on fresh stage state, halts after
    yielding the selected vertices one by one from the last to the first. *)
Theorem vertex_run_reverses g args h k :
  run [] Pipetypes (v g args) h (S (length (findVertices g args)) + k)
  = (VVertex <$> reverse (findVertices g args), Halted).
Proof.
  unfold run. apply loop_more_fuel; [|done].
  apply (vertex_loop g args (findVertices g args) ∅ h). by rewrite lookup_empty.
Qed.

Lemma noop_spins registry g (program : list step) name args :
  registry !! name = Some noop →
  ∀ fuel sts h,
    loop registry g (program ++ [(name, args)]) fuel
         {| pc := Z.of_nat (length program); done := -1; maybeGremlin := None;
            states := sts; heap := h |}
    = ([], OutOfFuel).
Proof.
  intros Hreg. induction fuel as [|fuel IH]; intros sts h.
  { rewrite loop_zero, length_app. simpl.
    by destruct (Z.ltb_spec (-1) (Z.of_nat (length program + 1) - 1)); [|lia]. }
  rewrite (loop_step _ _ _ _ _ Empty
             (default empty_state (sts !! Z.of_nat (length program))) h).
  - rewrite length_app. unfold settle, move_on. simpl.
    destruct (Z.gtb_spec (Z.of_nat (length program) + 1)
                         (Z.of_nat (length program + 1) - 1)); [|lia].
    simpl. by rewrite IH.
  - rewrite length_app. simpl. apply Z.ltb_lt. lia.
  - unfold call_stage, at_index. simpl.
    destruct (Z.ltb_spec (Z.of_nat (length program)) 0); [lia|].
    rewrite Nat2Z.id, lookup_app_r by lia. rewrite Nat.sub_diag. simpl.
    unfold getPipetype. rewrite Hreg. reflexivity.
Qed.

(** X17.  [addAlias] on the registry of transformers as shipped registers the
    empty stage under the new name and no transformer; a query whose last
    step is the alias then never halts and never yields: the empty stage
    neither emits nor asks upstream, so the loop calls it again and again. *)
Theorem alias_never_halts registry newname oldname defaults g
    (program : list step) args sts h fuel0 fuel :
  addAlias (S fuel0) newname oldname defaults registry []
  = Some (addPipetype newname noop registry, [])
  ∧ run [] (addPipetype newname noop registry)
        {| q_graph := g; q_state := sts;
           q_program := program ++ [(newname, args)] |} h fuel
    = ([], OutOfFuel).
Proof.
  split; [done|]. unfold run, transform, start. simpl.
  rewrite length_app. simpl.
  replace (Z.of_nat (length program + 1) - 1)%Z
    with (Z.of_nat (length program)) by lia.
  apply noop_spins. unfold addPipetype. apply lookup_insert_eq.
Qed.

(* ===================================================================== *)
(** * What every built store satisfies *)
(* ===================================================================== *)

Lemma addVertices_reachable vs : ∀ g, reachable g → reachable (addVertices g vs).
Proof.
  induction vs as [|vx vs IH]; intros g Hg; [done|].
  apply (IH (addVertex g vx).1). by apply reachable_vertex.
Qed.

Lemma addEdges_reachable es : ∀ g, reachable g → reachable (addEdges g es).
Proof.
  induction es as [|e es IH]; intros g Hg; [done|].
  apply (IH (addEdge g e).1). by apply reachable_edge.
Qed.

Lemma insert_all_app l1 l2 g :
  insert_all g (l1 ++ l2) = insert_all (insert_all g l1) l2.
Proof. apply foldl_app. Qed.

(** An id that is indexed stays indexed. *)
Lemma insert_keeps_indexed g i id :
  is_Some (findVertexById g id) → is_Some (findVertexById (insert g i) id).
Proof.
  unfold findVertexById. destruct i as [vx|e]; simpl.
  - unfold addVertex, store_vertex.
    destruct (truthy (va_id vx)); simpl;
      [destruct (Map_has (va_id vx) (vertexIndex g)); simpl|];
      try done; apply Map_get_set_is_Some.
  - unfold addEdge.
    by destruct (findVertexById g (ea_in e)), (findVertexById g (ea_out e)).
Qed.

Lemma insert_all_keeps_indexed l : ∀ g id,
  is_Some (findVertexById g id) → is_Some (findVertexById (insert_all g l) id).
Proof.
  induction l as [|i l IH]; intros g id Hid; [done|].
  change (insert_all g (i :: l)) with (insert_all (insert g i) l).
  by apply IH, insert_keeps_indexed.
Qed.

(** An insertion adds at most one entry, to the map of its kind. *)
Lemma insert_sizes g i :
  (length (vertices (insert g i))
   ≤ length (vertices g) + (if i is InsVertex _ then 1 else 0))%nat
  ∧ (length (edges (insert g i))
     ≤ length (edges g) + (if i is InsEdge _ then 1 else 0))%nat.
Proof.
  destruct i as [vx|e]; simpl.
  - unfold addVertex, store_vertex.
    destruct (truthy (va_id vx)); simpl;
      [destruct (Map_has (va_id vx) (vertexIndex g)); simpl|];
      rewrite ?Map_set_length; repeat case_match; lia.
  - unfold addEdge.
    destruct (findVertexById g (ea_in e)), (findVertexById g (ea_out e)); simpl;
      rewrite ?Map_set_length; repeat case_match; lia.
Qed.

Lemma insert_all_sizes l : ∀ g,
  (length (vertices (insert_all g l))
   ≤ length (vertices g)
     + length (List.filter (λ i, if i is InsVertex _ then true else false) l))%nat
  ∧ (length (edges (insert_all g l))
     ≤ length (edges g)
       + length (List.filter (λ i, if i is InsEdge _ then true else false) l))%nat.
Proof.
  induction l as [|i l IH]; intros g; [simpl; lia|].
  change (insert_all g (i :: l)) with (insert_all (insert g i) l).
  destruct (IH (insert g i)) as [Hv He]. destruct (insert_sizes g i) as [Hv' He'].
  destruct i; simpl in *; lia.
Qed.

Lemma filter_vertices_edges (vs : list vertex_arg) (es : list edge_arg) :
  List.filter (λ i, if i is InsVertex _ then true else false)
    ((InsVertex <$> vs) ++ (InsEdge <$> es)) = InsVertex <$> vs
  ∧ List.filter (λ i, if i is InsEdge _ then true else false)
      ((InsVertex <$> vs) ++ (InsEdge <$> es)) = InsEdge <$> es.
Proof.
  induction vs as [|vx vs [IHv IHe]]; simpl.
  - induction es as [|e es [IHv IHe]]; simpl; [done|].
    split; [exact IHv|f_equal; exact IHe].
  - split; [f_equal; exact IHv|exact IHe].
Qed.

(** X18.  [Dagoba.graph], given an array of vertices that bring no adjacency
    arrays and an array of edges, neither holding an object twice, builds a
    store in which the vertex map and its index agree, as do the edge map and
    its index; the ids in the map are truthy and pairwise distinct; each
    vertex is stored under the id it carries; both endpoints of every edge
    object carry ids that are in the map; every reference points to an
    object; every truthy id that was supplied is indexed; and there are no
    more vertices and edges than were given (duplicates and edges with a
    missing endpoint are skipped). *)
Theorem Dagoba_graph_well_formed (vs : list vertex_arg) (es : list edge_arg) :
  NoDup vs → NoDup es →
  Forall (λ vx, va_out vx = None ∧ va_in vx = None) vs →
  let g := Dagoba_graph (Some vs) (Some es) in
  wf_store g
  ∧ store_closed g
  ∧ Forall (λ vx, truthy (va_id vx) = true → is_Some (findVertexById g (va_id vx))) vs
  ∧ (length (vertices g) ≤ length vs)%nat
  ∧ (length (edges g) ≤ length es)%nat.
Proof.
  intros _ _ Hplain g.
  assert (Hg : g = insert_all empty_graph ((InsVertex <$> vs) ++ (InsEdge <$> es)))
    by apply Dagoba_graph_insert_all.
  split_and!.
  - apply reachable_wf. rewrite Hg. apply insert_all_reachable, reachable_empty.
  - rewrite Hg. apply insert_all_closed; [apply empty_graph_closed|].
    rewrite forallb_app. apply andb_true_iff. split; apply forallb_forall.
    + intros i Hi. apply list_elem_of_In, list_elem_of_fmap in Hi as [vx [-> Hvx]].
      rewrite Forall_forall in Hplain. destruct (Hplain vx Hvx) as [Ho Hi].
      simpl. by rewrite Ho, Hi.
    + intros i Hi. by apply list_elem_of_In, list_elem_of_fmap in Hi as [e [-> _]].
  - apply Forall_forall. intros vx Hvx Hid.
    apply list_elem_of_split in Hvx as (vs1 & vs2 & ->).
    rewrite Hg, fmap_app, fmap_cons, <- app_assoc, insert_all_app. simpl.
    apply insert_all_keeps_indexed. simpl.
    apply Map_has_true. by apply addVertex_indexes.
  - rewrite Hg. destruct (insert_all_sizes ((InsVertex <$> vs) ++ (InsEdge <$> es))
                            empty_graph) as [Hv _].
    rewrite (proj1 (filter_vertices_edges vs es)) in Hv. by rewrite length_fmap in Hv.
  - rewrite Hg. destruct (insert_all_sizes ((InsVertex <$> vs) ++ (InsEdge <$> es))
                            empty_graph) as [_ He].
    rewrite (proj2 (filter_vertices_edges vs es)) in He. by rewrite length_fmap in He.
Qed.

(** The store of the scenarios. *)
Lemma Dagoba_graph_well_formed_witness :
  wf_store scenario_store
  ∧ is_Some (findVertexById scenario_store (PNum 2))
  ∧ (length (vertices scenario_store) ≤ 2)%nat.
Proof.
  destruct (Dagoba_graph_well_formed [named 1 "a"; named 2 "b"] [knows_1_2])
    as (Hwf & _ & Hids & Hlen & _).
  - apply NoDup_cons. split; [|apply NoDup_singleton].
    intros Hin. apply list_elem_of_singleton in Hin. discriminate Hin.
  - apply NoDup_singleton.
  - repeat constructor.
  - split_and!; [exact Hwf | | exact Hlen].
    apply Forall_cons in Hids as [_ Hids]. apply Forall_cons in Hids as [H2 _].
    by apply H2.
Defined.
